(** * sails-mongo [lib/collection.js]: the Collection facade

    A shallow embedding of [lib/collection.js] and the properties of its
    constructor ([parseDefinition], [buildIndexes]) and of its four
    operations ([find], [insert], [update], [destroy]).

    - [JS]: immutable JavaScript values, used where the code only passes
      data along (criteria, documents, driver replies, callback arguments).
    - [Heap]: a store of mutable objects with references, used for the
      constructor, where the code clones the caller's object and then
      mutates the clone in place.
    - [prototype]: the operations, written as scripts of interactions with
      the connection and the native driver, and run against a driver. *)

From Stdlib Require Import ZArith String List Lia.
From stdpp Require Import base list strings pretty.

Local Set Warnings "-register-all".
Local Open Scope string_scope.

(** ** JavaScript values *)

Module JS.

(** Numbers are integers here (identifiers, counts, sort directions); an
    [Error] instance keeps its name and message.  An object is the list of
    its own enumerable properties in insertion order (an engine lists
    integer-like names first; the statements below are about what a
    property holds, not about where it is listed). *)
Inductive value : Type :=
| VUndef
| VNull
| VBool (b : bool)
| VNum (n : Z)
| VStr (s : string)
| VErr (name message : string)
| VArr (items : list value)
| VObj (props : list (string * value)).

(** The result of evaluating an expression: a value or a thrown exception. *)
Inductive res (A : Type) : Type :=
| Ok (a : A)
| Throw (e : value).
Arguments Ok {A} a.
Arguments Throw {A} e.

Definition bind {A B} (m : res A) (k : A -> res B) : res B :=
  match m with
  | Ok a => k a
  | Throw e => Throw e
  end.

Notation "x <- m ;; k" := (bind m (fun x => k))
  (at level 100, m at next level, right associativity).

Definition TypeError (message : string) : value := VErr "TypeError" message.
Definition ReferenceError (message : string) : value := VErr "ReferenceError" message.
Definition RangeError (message : string) : value := VErr "RangeError" message.
Definition Error (message : string) : value := VErr "Error" message.

(** [if (v)], [!v], [v || w] *)
Definition truthy (v : value) : bool :=
  match v with
  | VUndef | VNull => false
  | VBool b => b
  | VNum n => negb (n =? 0)%Z
  | VStr s => negb (String.eqb s "")
  | VErr _ _ | VArr _ | VObj _ => true
  end.

Definition or_else (v w : value) : value := if truthy v then v else w.

Definition nullish (v : value) : bool :=
  match v with
  | VUndef | VNull => true
  | _ => false
  end.

(** Array.isArray / _.isArray *)
Definition isArray (v : value) : bool :=
  match v with
  | VArr _ => true
  | _ => false
  end.

(** *** Properties *)

Fixpoint obj_get (k : string) (ps : list (string * value)) : option value :=
  match ps with
  | [] => None
  | (k', v) :: ps' => if String.eqb k k' then Some v else obj_get k ps'
  end.

(** [o[k] = v]: an existing property keeps its place, a new one goes last. *)
Fixpoint obj_set (k : string) (v : value) (ps : list (string * value))
  : list (string * value) :=
  match ps with
  | [] => [(k, v)]
  | (k', v') :: ps' =>
      if String.eqb k k' then (k, v) :: ps' else (k', v') :: obj_set k v ps'
  end.

(** [delete o[k]] *)
Fixpoint obj_delete (k : string) (ps : list (string * value))
  : list (string * value) :=
  match ps with
  | [] => []
  | (k', v') :: ps' =>
      if String.eqb k k' then obj_delete k ps' else (k', v') :: obj_delete k ps'
  end.

Definition index_keys (n : nat) : list string := map pretty (seq 0 n).

Fixpoint chars (s : string) : list value :=
  match s with
  | EmptyString => []
  | String c s' => VStr (String c EmptyString) :: chars s'
  end.

(** The own enumerable properties a [for ... in] loop visits: the properties
    of an object, the indices of an array or of a string. *)
Definition own_props (v : value) : list (string * value) :=
  match v with
  | VObj ps => ps
  | VArr items => combine (index_keys (length items)) items
  | VStr s => combine (index_keys (String.length s)) (chars s)
  | _ => []
  end.

Definition forin_keys (v : value) : list string := map fst (own_props v).

(** [v.k] and [v[k]]: reading a property of [undefined] or [null] throws, a
    missing property reads as [undefined].  Built-in non-enumerable
    properties ([length], methods) are not modelled. *)
Definition get_prop (v : value) (k : string) : res value :=
  if nullish v
  then Throw (TypeError ("Cannot read property '" ++ k ++ "' of " ++
                          match v with VNull => "null" | _ => "undefined" end))
  else Ok (match obj_get k (own_props v) with
           | Some x => x
           | None => VUndef
           end).

(** [v[k] = x] in sloppy mode: only objects take new properties here. *)
Definition set_prop (v : value) (k : string) (x : value) : value :=
  match v with
  | VObj ps => VObj (obj_set k x ps)
  | _ => v
  end.

(** [delete v.k] *)
Definition delete_prop (v : value) (k : string) : value :=
  match v with
  | VObj ps => VObj (obj_delete k ps)
  | _ => v
  end.

(** _.omit(object, key): a new object with every property but [key]. *)
Definition omit (v : value) (k : string) : value :=
  VObj (obj_delete k (own_props v)).

(** Structural equality, used for identifiers in the store's [$in]. *)
Fixpoint value_eqb (v w : value) : bool :=
  match v, w with
  | VUndef, VUndef => true
  | VNull, VNull => true
  | VBool a, VBool b => Bool.eqb a b
  | VNum a, VNum b => (a =? b)%Z
  | VStr a, VStr b => String.eqb a b
  | VErr n m, VErr n' m' => String.eqb n n' && String.eqb m m'
  | VArr l, VArr l' =>
      (fix go (l l' : list value) : bool :=
         match l, l' with
         | [], [] => true
         | x :: t, y :: t' => value_eqb x y && go t t'
         | _, _ => false
         end) l l'
  | VObj ps, VObj ps' =>
      (fix go (ps ps' : list (string * value)) : bool :=
         match ps, ps' with
         | [], [] => true
         | (k, x) :: t, (k', y) :: t' => String.eqb k k' && value_eqb x y && go t t'
         | _, _ => false
         end) ps ps'
  | _, _ => false
  end.

End JS.

Import JS.

(** ** lib/utils.js *)

Module utils.

(** Modelled from the spec: [utils.rewriteIds] (lib/utils.js is not among the
    sources).  Section 4.2, outbound: every record returned by the store is
    rewritten so that the store-native primary identifier [_id] becomes the
    ORM's generic identifier field [id], for single records and for arrays of
    records alike. *)
Definition rewriteId (model : value) : value :=
  match model with
  | VObj ps =>
      match obj_get "_id" ps with
      | Some i => VObj (obj_delete "_id" (obj_set "id" i ps))
      | None => model
      end
  | _ => model
  end.

Definition rewriteIds (models : value) : value :=
  match models with
  | VArr items => VArr (map rewriteId items)
  | model => rewriteId model
  end.

End utils.

(** ** The connection and the native driver

    [lib/connection.js] and the mongodb driver are collaborators of the
    facade: an operation opens the connection, calls the driver on the
    collection named after the instance's identity, closes the database
    handle and reports through the callback. *)

Module native.

(** The driver calls the facade makes, with the collection they go to. *)
Inductive call : Type :=
| find (coll : string) (selector options : value)
| aggregate (coll : string) (pipeline : value)
| insert (coll : string) (docs : value)
| update (coll : string) (selector document options : value)
| remove (coll : string) (selector : value).

End native.

(** What an operation does, in the order it does it.  [connection.open]
    calls its continuation (the operations pass it a function without
    parameters, so what [open] reports is not looked at); a driver call
    hands [(err, result)] to its continuation; [cb] and [uncaught] end the
    operation: every [cb(...)] in the source is the last statement on its
    path, [cb(err)] is [cb err VUndef], and an exception raised inside a
    continuation has no handler. *)
Inductive script : Type :=
| open (k : script)
| native_call (c : native.call) (k : value -> value -> script)
| close (k : script)
| cb (err result : value)
| uncaught (e : value).

Definition eval_then {A} (m : res A) (k : A -> script) : script :=
  match m with
  | Ok a => k a
  | Throw e => uncaught e
  end.

(** A driver answers each call from its state. *)
Record driver (S : Type) : Type :=
  { reply : S -> native.call -> S * (value * value) }.
Arguments reply {S} d s c.

Inductive event : Type :=
| Opened
| Called (c : native.call)
| Closed
| CalledBack (err result : value)
| Uncaught (e : value).

Fixpoint run {S} (d : driver S) (s : S) (p : script) : list event :=
  match p with
  | open k => Opened :: run d s k
  | native_call c k =>
      let '(s', (err, result)) := reply d s c in
      Called c :: run d s' (k err result)
  | close k => Closed :: run d s k
  | cb err result => [CalledBack err result]
  | uncaught e => [Uncaught e]
  end.

Definition is_callback (e : event) : bool :=
  match e with CalledBack _ _ => true | _ => false end.

(** The driver calls of a run, and how many times the callback fired. *)
Definition calls (t : list event) : list native.call :=
  omap (fun e => match e with Called c => Some c | _ => None end) t.
Definition callbacks (t : list event) : nat := length (List.filter is_callback t).

(** No callback of the trace fires while the connection is open, that is
    between an [Opened] and the next [Closed]. *)
Fixpoint closed_at_callbacks (is_open : bool) (t : list event) : bool :=
  match t with
  | [] => true
  | Opened :: t' => closed_at_callbacks true t'
  | Closed :: t' => closed_at_callbacks false t'
  | CalledBack _ _ :: t' => negb is_open && closed_at_callbacks is_open t'
  | _ :: t' => closed_at_callbacks is_open t'
  end.

(** ** The Collection instance and its operations *)

Record collection (V : Type) : Type :=
  { identity : string;
    config : V;
    schema : V;
    indexes : list value }.
Arguments identity {V} c.
Arguments config {V} c.
Arguments schema {V} c.
Arguments indexes {V} c.

(** What [lib/query.js] exposes of a parsed criteria. *)
Module query.
Record t : Type :=
  { criteria : value;
    aggregate : value;
    aggregateGroup : value }.
End query.

(** [array.map(f)] and [array.forEach(f)] on a value that may not be an
    array: [undefined.map] is a property read of [undefined], and a value
    without the method cannot be called. *)
Fixpoint map_res (f : value -> res value) (items : list value) : res (list value) :=
  match items with
  | [] => Ok []
  | x :: rest =>
      y <- f x;;
      ys <- map_res f rest;;
      Ok (y :: ys)
  end.

Definition array_each (method : string) (f : value -> res value) (v : value)
  : res (list value) :=
  match v with
  | VArr items => map_res f items
  | _ =>
      _ <- get_prop v method;;
      Throw (TypeError (method ++ " is not a function"))
  end.

Module prototype.
Section Operations.

(** [new Query(criteria)] raises on malformed criteria;
    [new Document(values, schema).values] is the shaped document. *)
Variable Query : value -> res query.t.
Variable Document : value -> value -> value.

(** [this]; its [config] only goes into [new Connection(this.config)],
    which is built before the criteria are parsed and opens nothing. *)
Variable self : collection value.

(** The body of the [results.map] callback of an aggregate [find]:
    [result._id] is read again at every turn of the [for ... in] loop. *)
Fixpoint extract (keys : list string) (result : value) : res value :=
  match keys with
  | [] => Ok result
  | key :: keys' =>
      _id <- get_prop result "_id";;
      x <- get_prop _id key;;
      extract keys' (set_prop result key x)
  end.

Definition flatten (result : value) : res value :=
  _id <- get_prop result "_id";;
  result' <- extract (forin_keys _id) result;;
  Ok (delete_prop result' "_id").

Definition find (criteria : value) : script :=
  match Query criteria with
  | Throw err => cb err VUndef
  | Ok query =>
      open (
        if truthy (query.aggregate query) then
          eval_then (get_prop (query.criteria query) "where") (fun w =>
            let aggregate :=
              VArr [VObj [("$match", or_else w (VObj []))];
                    VObj [("$group", query.aggregateGroup query)]] in
            native_call (native.aggregate (identity self) aggregate)
              (fun err results =>
                 close (
                   eval_then (array_each "map" flatten results) (fun mapped =>
                     cb err (VArr mapped)))))
        else
          eval_then (get_prop (query.criteria query) "where") (fun w =>
            let where_ := or_else w (VObj []) in
            let queryOptions := omit (query.criteria query) "where" in
            native_call (native.find (identity self) where_ queryOptions)
              (fun err docs =>
                 close (
                   if truthy err then cb err VUndef
                   else cb VNull (utils.rewriteIds docs)))))
  end.

Definition insert (values : value) : script :=
  let values := if isArray values then values else VArr [values] in
  eval_then
    (array_each "map" (fun value => Ok (Document value (schema self))) values)
    (fun docs =>
       open (
         native_call (native.insert (identity self) (VArr docs))
           (fun err results =>
              close (
                if truthy err then cb err VUndef
                else cb VNull (utils.rewriteIds results))))).

(** [if(values.id) delete values.id; if(values._id) delete values._id;] *)
Definition strip_ids (values : value) : res value :=
  id <- get_prop values "id";;
  let values := if truthy id then delete_prop values "id" else values in
  _id <- get_prop values "_id";;
  Ok (if truthy _id then delete_prop values "_id" else values).

Definition update (criteria values : value) : script :=
  match Query criteria with
  | Throw err => cb err VUndef
  | Ok query =>
      let values := Document values (schema self) in
      eval_then (strip_ids values) (fun values =>
        open (
          eval_then (get_prop (query.criteria query) "where") (fun where_ =>
            native_call (native.find (identity self) where_ VUndef)
              (fun err records =>
                 if truthy err || negb (truthy records) then
                   close (
                     if truthy err then cb err VUndef
                     else cb (Error "Could not find any records to update") VUndef)
                 else
                   eval_then
                     (array_each "forEach"
                        (fun record => get_prop record "_id") records)
                     (fun updatedRecords =>
                        native_call
                          (native.update (identity self) where_
                             (VObj [("$set", values)])
                             (VObj [("multi", VBool true)]))
                          (fun err result =>
                             if truthy err then close (cb err VUndef)
                             else
                               native_call
                                 (native.find (identity self)
                                    (VObj [("_id",
                                            VObj [("$in", VArr updatedRecords)])])
                                    VUndef)
                                 (fun err records =>
                                    close (
                                      if truthy err then cb err VUndef
                                      else cb VNull (utils.rewriteIds records)))))))))
  end.

(** The last statement passes [resultArray], a name declared nowhere
    (the list built above it is [resultsArray]): evaluating the argument
    raises a ReferenceError before [cb] or [utils.rewriteIds] is entered. *)
Definition destroy (criteria : value) : script :=
  match Query criteria with
  | Throw err => cb err VUndef
  | Ok query =>
      open (
        eval_then (get_prop (query.criteria query) "where") (fun where_ =>
          native_call (native.remove (identity self) where_)
            (fun err results =>
               close (
                 if truthy err then cb err VUndef
                 else if negb (isArray results) then
                   cb VNull (VArr [VObj [("id", results)]])
                 else
                   eval_then
                     (array_each "forEach"
                        (fun result => Ok (VObj [("id", result)])) results)
                     (fun resultsArray =>
                        uncaught (ReferenceError "resultArray is not defined"))))))
  end.

End Operations.
End prototype.

(** ** Mutable objects

    The constructor works on the caller's definition object, so objects are
    cells of a heap and values hold references to them. *)

Module Heap.

Inductive jv : Type :=
| Undef
| Null
| Bool (b : bool)
| Num (n : Z)
| Str (s : string)
| Ref (a : nat).

Inductive cell : Type :=
| Obj (props : list (string * jv))
| Arr (items : list jv).

(** A reference is an index into the heap; a new object goes at the end. *)
Abbreviation heap := (list cell).

(** A computation ends with a value or with a thrown exception. *)
Inductive outcome (A : Type) : Type :=
| Done (a : A)
| Thrown (e : value).
Arguments Done {A} a.
Arguments Thrown {A} e.

Definition M (A : Type) : Type := heap -> heap * outcome A.

Definition ret {A} (a : A) : M A := fun h => (h, Done a).
Definition throw {A} (e : value) : M A := fun h => (h, Thrown e).

Definition bind {A B} (m : M A) (k : A -> M B) : M B :=
  fun h =>
    match m h with
    | (h', Done a) => k a h'
    | (h', Thrown e) => (h', Thrown e)
    end.

Declare Scope heap_scope.
Delimit Scope heap_scope with heap.
Notation "x <- m ;; k" := (bind m (fun x => k))
  (at level 100, m at next level, right associativity) : heap_scope.
Local Open Scope heap_scope.

Fixpoint mapM {A B} (f : A -> M B) (l : list A) : M (list B) :=
  match l with
  | [] => ret []
  | x :: rest =>
      y <- f x;;
      ys <- mapM f rest;;
      ret (y :: ys)
  end.

(** [keys.forEach(f)] *)
Fixpoint forEach (f : string -> M unit) (keys : list string) : M unit :=
  match keys with
  | [] => ret tt
  | key :: rest =>
      _ <- f key;;
      forEach f rest
  end.

Definition truthy (v : jv) : bool :=
  match v with
  | Undef | Null => false
  | Bool b => b
  | Num n => negb (n =? 0)%Z
  | Str s => negb (String.eqb s "")
  | Ref _ => true
  end.

Definition str_chars (s : string) : list jv :=
  map (fun c => match c with VStr x => Str x | _ => Undef end) (chars s).

Definition props_of (c : cell) : list (string * jv) :=
  match c with
  | Obj ps => ps
  | Arr items => combine (index_keys (length items)) items
  end.

Definition lookup_prop (k : string) (ps : list (string * jv)) : jv :=
  match List.find (fun p => String.eqb k (fst p)) ps with
  | Some p => snd p
  | None => Undef
  end.

(** The own enumerable properties of a value. *)
Definition own_props (v : jv) (h : heap) : list (string * jv) :=
  match v with
  | Ref a =>
      match h !! a with
      | Some c => props_of c
      | None => []
      end
  | Str s => combine (index_keys (String.length s)) (str_chars s)
  | _ => []
  end.

(** [v.k], [v[k]]; built-in non-enumerable properties ([length], methods)
    are not modelled. *)
Definition get (v : jv) (k : string) : M jv :=
  fun h =>
    match v with
    | Undef => (h, Thrown (TypeError ("Cannot read property '" ++ k ++ "' of undefined")))
    | Null => (h, Thrown (TypeError ("Cannot read property '" ++ k ++ "' of null")))
    | _ => (h, Done (lookup_prop k (own_props v h)))
    end.

(** *** The order of own properties

    An object lists its array indices first, in ascending order, and then
    its other property names in the order in which they were created.  An
    array index is the canonical decimal name of an integer below
    [2^32 - 1]. *)
Fixpoint digits (s : string) (acc : N) : option N :=
  match s with
  | EmptyString => Some acc
  | String c s' =>
      let n := Ascii.N_of_ascii c in
      if ((48 <=? n) && (n <=? 57))%N then digits s' (10 * acc + (n - 48))%N
      else None
  end.

Definition array_index (k : string) : option N :=
  match digits k 0 with
  | Some n =>
      if String.eqb (pretty n) k && (n <? 4294967295)%N then Some n else None
  | None => None
  end.

Definition is_named {A} (p : string * A) : bool :=
  match array_index (fst p) with
  | Some _ => false
  | None => true
  end.

(** [p], of index [n], goes before the first property whose index is not
    below [n]. *)
Fixpoint place {A} (n : N) (p : A) (l : list (N * A)) : list (N * A) :=
  match l with
  | [] => [(n, p)]
  | q :: l' => if (n <=? fst q)%N then (n, p) :: l else q :: place n p l'
  end.

Fixpoint indexed {A} (ps : list (string * A)) : list (N * (string * A)) :=
  match ps with
  | [] => []
  | p :: ps' =>
      match array_index (fst p) with
      | Some n => place n p (indexed ps')
      | None => indexed ps'
      end
  end.

Definition enumerate {A} (ps : list (string * A)) : list (string * A) :=
  (map snd (indexed ps) ++ List.filter is_named ps)%list.

Definition own_keys (v : jv) (h : heap) : list string :=
  map fst (enumerate (own_props v h)).

(** [Object.keys(v)], as engines from ES2015 on do it: a primitive is
    coerced to an object, [undefined] and [null] are refused. *)
Definition keys (v : jv) : M (list string) :=
  fun h =>
    match v with
    | Undef | Null => (h, Thrown (TypeError "Cannot convert undefined or null to object"))
    | _ => (h, Done (own_keys v h))
    end.

(** [delete v.k] for a property name [k] that is not an array index: only an
    object has such a property to lose. *)
Definition delete_prop (v : jv) (k : string) : M unit :=
  fun h =>
    match v with
    | Ref a =>
        match h !! a with
        | Some (Obj ps) =>
            (<[a := Obj (List.filter (fun p => negb (String.eqb k (fst p))) ps)]> h, Done tt)
        | _ => (h, Done tt)
        end
    | _ => (h, Done tt)
    end.

(** [{}], [[]] and object literals *)
Definition alloc (c : cell) : M jv :=
  fun h => ((h ++ [c])%list, Done (Ref (length h))).

Definition next_address : M nat := fun h => (h, Done (length h)).

(** The properties of an existing object are replaced. *)
Definition store (a : nat) (c : cell) : M unit :=
  fun h => (<[a := c]> h, Done tt).

(** *** [_.cloneDeep]

    lodash keeps a stack of the objects it has traversed, each with its
    clone: an object met again (shared, or on a cycle) is given the clone
    it already has.  The clone of an object is created empty, recorded, and
    then populated property by property, each value being cloned in turn.
    The recursion is as deep as the structure, and the engine's call stack
    is finite. *)
Abbreviation memo := (list (nat * nat)).

Definition traversed (a : nat) (seen : memo) : option nat :=
  match List.find (fun p => Nat.eqb a (fst p)) seen with
  | Some p => Some (snd p)
  | None => None
  end.

Definition empty_like (c : cell) : cell :=
  match c with
  | Obj _ => Obj []
  | Arr _ => Arr []
  end.

Definition with_props (c : cell) (ps : list (string * jv)) : cell :=
  match c with
  | Obj _ => Obj ps
  | Arr _ => Arr (map snd ps)
  end.

Fixpoint clone_props (clone : jv -> memo -> M (memo * jv))
    (ps : list (string * jv)) (seen : memo) : M (memo * list (string * jv)) :=
  match ps with
  | [] => ret (seen, [])
  | p :: rest =>
      r <- clone (snd p) seen;;
      rs <- clone_props clone rest (fst r);;
      ret (fst rs, (fst p, snd r) :: snd rs)
  end.

(** [source] is the heap as it was when [_.cloneDeep] was called: the
    objects being cloned are read from it, and none of them is written to
    while the clone is built. *)
Fixpoint baseClone (depth : nat) (source : heap) (v : jv) (seen : memo)
  : M (memo * jv) :=
  match v with
  | Ref a =>
      match traversed a seen, source !! a with
      | Some a', _ => ret (seen, Ref a')
      | None, None => ret (seen, v)
      | None, Some c =>
          match depth with
          | O => throw (RangeError "Maximum call stack size exceeded")
          | S depth' =>
              a' <- next_address;;
              _ <- alloc (empty_like c);;
              r <- clone_props (baseClone depth' source) (props_of c)
                     ((a, a') :: seen);;
              _ <- store a' (with_props c (snd r));;
              ret (fst r, Ref a')
          end
      end
  | _ => ret (seen, v)
  end.

(** The call stack has room for one frame per object of the heap and one
    more, which is all a clone can need. *)
Definition cloneDeep (v : jv) : M jv :=
  fun h => (r <- baseClone (S (length h)) h v [];; ret (snd r)) h.

Definition lower_ascii (c : Ascii.ascii) : Ascii.ascii :=
  let n := Ascii.nat_of_ascii c in
  if (65 <=? n)%nat && (n <=? 90)%nat then Ascii.ascii_of_nat (n + 32) else c.

Fixpoint lower (s : string) : string :=
  match s with
  | EmptyString => EmptyString
  | String c s' => String (lower_ascii c) (lower s')
  end.

(** [v.toLowerCase()]: the method exists on strings only.  A string is held
    as its bytes and [lower] folds the ASCII letters: it is the method's
    result for a string of ASCII characters, and only for such a string. *)
Definition toLowerCase (v : jv) : M string :=
  match v with
  | Str s => ret (lower s)
  | Undef => throw (TypeError "Cannot read property 'toLowerCase' of undefined")
  | Null => throw (TypeError "Cannot read property 'toLowerCase' of null")
  | _ => throw (TypeError "toLowerCase is not a function")
  end.

End Heap.

(** ** The constructor *)

Section Constructor.
Import Heap.
Local Open Scope heap_scope.

(** [utils.parseUrl] (lib/utils.js is not among the sources): it receives
    the clone's [config] and returns the connection parameters. *)
Variable parseUrl : jv -> M jv.

Definition parseDefinition (this : collection jv) (definition : jv)
  : M (collection jv) :=
  collectionDef <- cloneDeep definition;;
  config_ <- get collectionDef "config";;
  config' <- parseUrl config_;;
  schema' <- get collectionDef "definition";;
  schema_keys <- keys schema';;
  _ <- forEach (fun key =>
         field <- get schema' key;;
         autoIncrement <- get field "autoIncrement";;
         if truthy autoIncrement then
           field <- get schema' key;;
           delete_prop field "autoIncrement"
         else ret tt) schema_keys;;
  identity_ <- get collectionDef "identity";;
  identity' <- toLowerCase identity_;;
  ret {| identity := identity'; config := config'; schema := schema';
         indexes := indexes this |}.

(** The descriptor pushed for [key]: [{ index: index, options: options }]
    with [index[key] = 1]. *)
Definition descriptor (key : string) (options : list (string * value)) : value :=
  VObj [("index", VObj [(key, VNum 1)]); ("options", VObj options)].

(** One turn of the [forEach] of [buildIndexes]: what it pushes. *)
Definition index_of (schema_ : jv) (key : string) : M (list value) :=
  field <- get schema_ key;;
  unique <- get field "unique";;
  if truthy unique then
    ret [descriptor key [("sparse", VBool true); ("unique", VBool true)]]
  else
    field <- get schema_ key;;
    index <- get field "index";;
    if truthy index then ret [descriptor key [("sparse", VBool true)]]
    else ret [].

(** [this.indexes] is the list of the descriptors pushed so far, a field of
    the instance and not a cell of the heap: the instance comes out when
    the loop returns, and what a loop that throws has pushed by then is not
    held anywhere. *)
Definition buildIndexes (this : collection jv) : M (collection jv) :=
  schema_keys <- keys (schema this);;
  pushed <- mapM (index_of (schema this)) schema_keys;;
  ret {| identity := identity this; config := config this;
         schema := schema this;
         indexes := (indexes this ++ concat pushed)%list |}.

Definition Collection (definition : jv) : M (collection jv) :=
  config0 <- alloc (Obj []);;
  let this := {| identity := ""; config := config0; schema := Null;
                 indexes := [] |} in
  this <- parseDefinition this definition;;
  this <- buildIndexes this;;
  ret this.

End Constructor.

(** ** Collaborators to run the operations with *)

(** A driver that answers from a prepared list of replies, in order. *)
Definition scripted : driver (list (value * value)) :=
  {| reply := fun s _ =>
       match s with
       | [] => ([], (VUndef, VUndef))
       | r :: s' => (s', r)
       end |}.

(** What a store does with [{$set: fields}]: every field is assigned. *)
Definition assign (fields : list (string * value)) (doc : value) : value :=
  fold_left (fun d p => set_prop d (fst p) (snd p)) fields doc.

(** [record._id] *)
Definition native_id (record : value) : value :=
  default VUndef (obj_get "_id" (own_props record)).

Module sample.

(** Modelled from the spec: [new Query(criteria)] (lib/query.js is not among
    the sources).  Section 6: it raises synchronously on malformed criteria
    and otherwise exposes [.criteria.where], [.aggregate] and
    [.aggregateGroup]; section 3: a criteria is an object
    [{where, ...modifiers}], optionally with [aggregate] and
    [aggregateGroup]. *)
Definition Query (criteria : value) : res query.t :=
  match criteria with
  | VObj ps =>
      Ok {| query.criteria := criteria;
            query.aggregate := default VUndef (obj_get "aggregate" ps);
            query.aggregateGroup := default VUndef (obj_get "aggregateGroup" ps) |}
  | _ => Throw (Error "Invalid criteria")
  end.

(** Modelled from the spec: [new Document(values, schema).values]
    (lib/document.js is not among the sources), for a schema that asks for
    no shaping: the values as they came. *)
Definition Document (values schema : value) : value := values.

(** A document store with equality and [$in] selectors. *)
Definition condition (doc : value) (cond : string * value) : bool :=
  let field := default VUndef (obj_get (fst cond) (own_props doc)) in
  match snd cond with
  | VObj [(op, VArr ids)] =>
      if String.eqb op "$in" then existsb (value_eqb field) ids
      else value_eqb field (snd cond)
  | v => value_eqb field v
  end.

Definition matches (selector doc : value) : bool :=
  forallb (condition doc) (own_props selector).

Definition store : driver (list value) :=
  {| reply := fun docs c =>
       match c with
       | native.find _ selector _ =>
           (docs, (VNull, VArr (List.filter (matches selector) docs)))
       | native.update _ selector (VObj [("$set", VObj fields)]) _ =>
           match obj_get "_id" fields with
           | Some _ => (docs, (Error "Mod on _id not allowed", VUndef))
           | None =>
               (map (fun doc => if matches selector doc then assign fields doc
                                else doc) docs,
                (VNull, VNum (Z.of_nat (length (List.filter (matches selector) docs)))))
           end
       | native.remove _ selector =>
           (List.filter (fun doc => negb (matches selector doc)) docs,
            (VNull, VNum (Z.of_nat (length (List.filter (matches selector) docs)))))
       | native.insert _ (VArr new) => ((docs ++ new)%list, (VNull, VArr new))
       | _ => (docs, (Error "unsupported", VUndef))
       end |}.

Definition users : collection value :=
  {| identity := "user"; config := VObj []; schema := VObj []; indexes := [] |}.

(** Documents and criteria of the examples. *)
Definition ann : value := VObj [("_id", VNum 1); ("name", VStr "a")].
Definition bob : value := VObj [("_id", VNum 2); ("name", VStr "b")].
Definition zoe : value := VObj [("_id", VNum 3); ("name", VStr "z")].

Definition named (name : string) : value :=
  VObj [("where", VObj [("name", VStr name)])].

Definition grouping (field : string) : value :=
  VObj [("aggregate", VBool true);
        ("aggregateGroup",
         VObj [("_id", VObj [(field, VStr ("$" ++ field))]);
               ("n", VObj [("$sum", VNum 1)])])].

Definition pipeline (field : string) : value :=
  VArr [VObj [("$match", VObj [])];
        VObj [("$group",
               VObj [("_id", VObj [(field, VStr ("$" ++ field))]);
                     ("n", VObj [("$sum", VNum 1)])])]].

(** Modelled from the spec: [utils.parseUrl] (lib/utils.js is not among the
    sources), for a config that sets no url: there are no url parameters to
    load and the config is returned as it is. *)
Definition parseUrl (config : Heap.jv) : Heap.M Heap.jv := Heap.ret config.

(** A caller's heap: the definition
    [{identity: 'User', config: {}, definition: {id: {...}, name: {...}}}]
    at address 4, its schema at address 2. *)
Definition caller : Heap.heap :=
  [Heap.Obj [("type", Heap.Str "integer"); ("autoIncrement", Heap.Bool true);
             ("unique", Heap.Bool true); ("index", Heap.Bool true)];
   Heap.Obj [("type", Heap.Str "string"); ("index", Heap.Bool true)];
   Heap.Obj [("id", Heap.Ref 0); ("name", Heap.Ref 1)];
   Heap.Obj [];
   Heap.Obj [("identity", Heap.Str "User"); ("config", Heap.Ref 3);
             ("definition", Heap.Ref 2)]].

(** Another caller's heap, with numbered fields: the definition
    [{identity: 'Log', config: {}, definition: {name: i, 10: u, 9: i}}] at
    address 4, where [u] is [{unique: true}] and [i] is [{index: true}],
    the same object for both fields that hold it. *)
Definition numbered : Heap.heap :=
  [Heap.Obj [("unique", Heap.Bool true)];
   Heap.Obj [("index", Heap.Bool true)];
   Heap.Obj [("name", Heap.Ref 1); ("10", Heap.Ref 0); ("9", Heap.Ref 1)];
   Heap.Obj [];
   Heap.Obj [("identity", Heap.Str "Log"); ("config", Heap.Ref 3);
             ("definition", Heap.Ref 2)]].

End sample.

(** ** Predicates of the statements *)


(** [record] is [group] flattened: every property of the synthetic
    identifier is a top-level property of the record, with its value, and
    the identifier itself is gone: [_id] holds nothing, unless one of the
    grouped properties is itself called [_id]. *)
Definition flat (group record : value) : Prop :=
  exists ps i ps',
    group = VObj ps /\ obj_get "_id" ps = Some i /\
    record = VObj ps' /\
    (forall k v, obj_get k (own_props i) = Some v -> obj_get k ps' = Some v) /\
    (obj_get "_id" (own_props i) = None -> obj_get "_id" ps' = None).

(** A record as the store keeps it, and the same record as the ORM wants
    it: [id] holds what [_id] held, [_id] is gone, the rest is untouched. *)
Definition has_native_id (record : value) : Prop :=
  exists ps i, record = VObj ps /\ obj_get "_id" ps = Some i.

Definition normalized (record entry : value) : Prop :=
  exists ps i ps',
    record = VObj ps /\ obj_get "_id" ps = Some i /\
    entry = VObj ps' /\ obj_get "id" ps' = Some i /\ obj_get "_id" ps' = None /\
    forall k, k <> "id" -> k <> "_id" -> obj_get k ps' = obj_get k ps.

(** A schema field carries [flag] when [field[flag]] is truthy. *)
Definition flagged (h : Heap.heap) (field : Heap.jv) (flag : string) : bool :=
  Heap.truthy (Heap.lookup_prop flag (Heap.own_props field h)).

(** The index descriptors that index [key]. *)
Definition describes (key : string) (d : value) : bool :=
  match d with
  | VObj ps =>
      match obj_get "index" ps with
      | Some i =>
          match obj_get key (own_props i) with
          | Some _ => true
          | None => false
          end
      | None => false
      end
  | _ => false
  end.

(** What one turn of the loop of [buildIndexes] pushes for a field. *)
Definition pushed_for (h : Heap.heap) (key : string) (field : Heap.jv) : list value :=
  if flagged h field "unique" then
    [descriptor key [("sparse", VBool true); ("unique", VBool true)]]
  else if flagged h field "index" then
    [descriptor key [("sparse", VBool true)]]
  else [].

(** The part of the heap a computation may touch: the cells from address
    [n] on.  A value is [fresh] when it does not refer below [n]; the region
    is closed when its cells hold fresh values only; a computation stays in
    the region when it leaves the cells below [n] as they are, keeps the
    region closed and returns a result satisfying [P]. *)
Definition fresh (n : nat) (v : Heap.jv) : Prop :=
  match v with
  | Heap.Ref a => n <= a
  | _ => True
  end.

Definition closed_from (n : nat) (h : Heap.heap) : Prop :=
  forall a c, n <= a -> h !! a = Some c ->
    Forall (fun p => fresh n (snd p)) (Heap.props_of c).

Definition stays_from {A} (n : nat) (P : A -> Prop) (m : Heap.M A) : Prop :=
  forall h, n <= length h -> closed_from n h ->
    take n (fst (m h)) = take n h /\
    n <= length (fst (m h)) /\
    closed_from n (fst (m h)) /\
    forall a, snd (m h) = Heap.Done a -> P a.

(** What a clone in progress keeps: the clones recorded on the stack of
    traversed objects are in the region, and so is the value returned. *)
Definition cloned {A} (n : nat) (Q : A -> Prop) (r : Heap.memo * A) : Prop :=
  Forall (fun p => n <= snd p) (fst r) /\ Q (snd r).

(** [utils.parseUrl] works on the object it is given (and on what that
    object refers to): it stays in any closed region its argument is in. *)
Definition local (parseUrl : Heap.jv -> Heap.M Heap.jv) : Prop :=
  forall n v, fresh n v -> stays_from n (fun _ => True) (parseUrl v).

(** The collection a driver call goes to. *)
Definition collection_of (c : native.call) : string :=
  match c with
  | native.find coll _ _ => coll
  | native.aggregate coll _ => coll
  | native.insert coll _ => coll
  | native.update coll _ _ _ => coll
  | native.remove coll _ => coll
  end.

(** Every driver call of the trace goes to [coll]. *)
Fixpoint calls_go_to (coll : string) (t : list event) : Prop :=
  match t with
  | [] => True
  | Called c :: t' => collection_of c = coll /\ calls_go_to coll t'
  | _ :: t' => calls_go_to coll t'
  end.

(** The connection is opened first and at most once, closed at most once,
    and the driver is only called in between. *)
Inductive phase : Type := Before | During | After.

Fixpoint connection_used_well (p : phase) (t : list event) : bool :=
  match t, p with
  | [], _ => true
  | Opened :: t', Before => connection_used_well During t'
  | Opened :: _, _ => false
  | Called _ :: t', During => connection_used_well During t'
  | Called _ :: _, _ => false
  | Closed :: t', During => connection_used_well After t'
  | Closed :: _, _ => false
  | _ :: t', _ => connection_used_well p t'
  end.

(** [h'] is [h] after some of its objects lost their [autoIncrement]
    property, which is all the loop of [parseDefinition] does to the heap. *)
Definition without_autoIncrement (ps : list (string * Heap.jv))
  : list (string * Heap.jv) :=
  List.filter (fun p => negb (String.eqb "autoIncrement" (fst p))) ps.

Definition shed_cell (c c' : Heap.cell) : Prop :=
  c' = c \/ exists ps, c = Heap.Obj ps /\ c' = Heap.Obj (without_autoIncrement ps).

Definition shed (h h' : Heap.heap) : Prop := Forall2 shed_cell h h'.

(** The name of an array index starts with a digit, not with an [a]
    (character 97). *)
Definition no_leading_a (s : string) : Prop :=
  match s with
  | String c _ => c <> Ascii.Ascii true false false false false true true false
  | EmptyString => True
  end.

(** [self.schema[key]] *)
Definition field_of (h : Heap.heap) (schema_ : Heap.jv) (key : string) : Heap.jv :=
  Heap.lookup_prop key (Heap.own_props schema_ h).

(** How an operation ends after its last driver call: [if(err) return
    cb(err); cb(null, utils.rewriteIds(result))]. *)
Definition report (err result : value) : event :=
  if truthy err then CalledBack err VUndef
  else CalledBack VNull (utils.rewriteIds result).

(** A property value and what [_.cloneDeep] puts in its place: a primitive
    is copied as it is, an object is replaced by an object. *)
Definition copy_of (v v' : Heap.jv) : Prop :=
  match v with
  | Heap.Ref _ => exists b, v' = Heap.Ref b
  | _ => v' = v
  end.

(** A string of ASCII characters: every byte is below 128. *)
Definition ascii_only (s : string) : bool :=
  forallb (fun c => (Ascii.nat_of_ascii c <? 128)%nat) (list_ascii_of_string s).

(** [utils.parseUrl] loads connection parameters: whatever it does to the
    objects of the heap, it leaves their [identity] property as it is. *)
Definition keeps_identity (parseUrl : Heap.jv -> Heap.M Heap.jv) : Prop :=
  forall v h h' r a ps,
    parseUrl v h = (h', Heap.Done r) ->
    h !! a = Some (Heap.Obj ps) ->
    exists ps', h' !! a = Some (Heap.Obj ps') /\
      Heap.lookup_prop "identity" ps' = Heap.lookup_prop "identity" ps.

(** * Properties *)

(** ** Objects *)

Lemma obj_get_set_eq k v ps : obj_get k (obj_set k v ps) = Some v.
Proof.
  induction ps as [|[k' v'] ps IH]; simpl.
  - by rewrite String.eqb_refl.
  - destruct (String.eqb k k') eqn:E; simpl; rewrite ?String.eqb_refl, ?E; auto.
Qed.

Lemma obj_get_set_ne k k' v ps :
  k <> k' -> obj_get k (obj_set k' v ps) = obj_get k ps.
Proof.
  intros Hne. induction ps as [|[k2 v2] ps IH]; simpl.
  - apply String.eqb_neq in Hne. by rewrite Hne.
  - destruct (String.eqb k' k2) eqn:E; simpl.
    + apply String.eqb_eq in E. subst k2.
      apply String.eqb_neq in Hne. by rewrite Hne.
    + by rewrite IH.
Qed.

Lemma obj_get_delete_eq k ps : obj_get k (obj_delete k ps) = None.
Proof.
  induction ps as [|[k' v'] ps IH]; simpl; auto.
  destruct (String.eqb k k') eqn:E; simpl; rewrite ?E; auto.
Qed.

Lemma obj_get_delete_ne k k' ps :
  k <> k' -> obj_get k (obj_delete k' ps) = obj_get k ps.
Proof.
  intros Hne. induction ps as [|[k2 v2] ps IH]; simpl; auto.
  destruct (String.eqb k' k2) eqn:E; simpl.
  - apply String.eqb_eq in E. subst k2.
    apply String.eqb_neq in Hne. by rewrite Hne.
  - by rewrite IH.
Qed.

Lemma obj_get_delete k k' ps :
  obj_get k (obj_delete k' ps) = if String.eqb k k' then None else obj_get k ps.
Proof.
  destruct (String.eqb k k') eqn:E.
  - apply String.eqb_eq in E. subst. apply obj_get_delete_eq.
  - apply String.eqb_neq in E. by apply obj_get_delete_ne.
Qed.


Lemma obj_get_None_notin k ps : obj_get k ps = None -> ~ In k (map fst ps).
Proof.
  induction ps as [|[k' v'] ps IH]; simpl; [tauto|].
  destruct (String.eqb k k') eqn:E; [discriminate|].
  apply String.eqb_neq in E. intros H [Heq|Hin]; [congruence|tauto].
Qed.

Lemma rewriteId_normalized record :
  has_native_id record -> normalized record (utils.rewriteId record).
Proof.
  intros (ps & i & -> & Hid). exists ps, i, (obj_delete "_id" (obj_set "id" i ps)).
  unfold utils.rewriteId. rewrite Hid. repeat split; auto.
  - rewrite obj_get_delete_ne by discriminate. apply obj_get_set_eq.
  - apply obj_get_delete_eq.
  - intros k Hk Hk'. rewrite obj_get_delete_ne, obj_get_set_ne; auto.
Qed.

Lemma value_eqb_sound : forall v w, value_eqb v w = true -> v = w.
Proof.
  fix IH 1. intros v w; destruct v; destruct w; simpl; intros H;
    try discriminate; try reflexivity.
  - f_equal. by apply Bool.eqb_prop.
  - f_equal. by apply Z.eqb_eq.
  - f_equal. by apply String.eqb_eq.
  - apply andb_true_iff in H as [H1 H2].
    f_equal; by apply String.eqb_eq.
  - f_equal. revert items0 H.
    induction items as [|x l IHl]; intros [|y l'] H; try discriminate; auto.
    apply andb_true_iff in H as [H1 H2].
    f_equal; [by apply IH | by apply IHl].
  - f_equal. revert props0 H.
    induction props as [|[k x] l IHl]; intros [|[k' y] l'] H;
      try discriminate; auto.
    apply andb_true_iff in H as [H1 H3].
    apply andb_true_iff in H1 as [H1 H2].
    f_equal; [|by apply IHl].
    f_equal; [by apply String.eqb_eq | by apply IH].
Qed.

Lemma value_eqb_refl : forall v, value_eqb v v = true.
Proof.
  fix IH 1. intros v; destruct v; simpl; auto.
  - by destruct b.
  - apply Z.eqb_refl.
  - apply String.eqb_refl.
  - by rewrite !String.eqb_refl.
  - induction items as [|x l IHl]; auto.
    by rewrite IH, IHl.
  - induction props as [|[k x] l IHl]; auto.
    by rewrite String.eqb_refl, IH, IHl.
Qed.

Lemma existsb_value_eqb x l : existsb (value_eqb x) l = true <-> In x l.
Proof.
  rewrite existsb_exists. split.
  - intros (y & Hin & Heq). apply value_eqb_sound in Heq. by subst.
  - intros Hin. exists x. split; auto. apply value_eqb_refl.
Qed.

(** ** Stripping and assigning fields *)

Lemma strip_ids_object values fields :
  prototype.strip_ids values = Ok (VObj fields) ->
  (forall x, obj_get "id" fields = Some x -> truthy x = false) /\
  (forall x, obj_get "_id" fields = Some x -> truthy x = false).
Proof.
  unfold prototype.strip_ids, get_prop.
  destruct values as [| | | | | | |props]; simpl.
  1-7: intros H;
       repeat (simpl in H;
               match type of H with
               | context [if ?b then _ else _] => destruct b
               end);
       simpl in H; discriminate.
  set (ps1 := if truthy (default VUndef (obj_get "id" props))
              then obj_delete "id" props else props).
  assert (Hid : forall x, obj_get "id" ps1 = Some x -> truthy x = false).
  { subst ps1. intros x.
    destruct (obj_get "id" props) as [y|] eqn:E; simpl.
    - destruct (truthy y) eqn:T.
      + by rewrite obj_get_delete_eq.
      + rewrite E. congruence.
    - rewrite E. discriminate. }
  replace (match obj_get "id" props with Some x => x | None => VUndef end)
    with (default VUndef (obj_get "id" props)) by reflexivity.
  destruct (truthy (default VUndef (obj_get "id" props))) eqn:T1; simpl;
    fold ps1;
    replace (match obj_get "_id" ps1 with Some x => x | None => VUndef end)
      with (default VUndef (obj_get "_id" ps1)) by reflexivity;
    (destruct (obj_get "_id" ps1) as [y|] eqn:E; simpl;
     [destruct (truthy y) eqn:T; simpl|]; intros [= <-]; split; intros x;
     rewrite ?obj_get_delete_eq, ?obj_get_delete_ne by discriminate;
     try discriminate; auto; congruence).
Qed.

Lemma assign_object fields : forall ps,
  exists ps', assign fields (VObj ps) = VObj ps' /\
    forall k, ~ In k (map fst fields) -> obj_get k ps' = obj_get k ps.
Proof.
  unfold assign. induction fields as [|[k v] fields IH]; intros ps; simpl.
  - exists ps. auto.
  - destruct (IH (obj_set k v ps)) as (ps' & Heq & Hkeep).
    exists ps'. split; auto. intros k' Hk'.
    rewrite Hkeep by tauto. apply obj_get_set_ne. intros ->. tauto.
Qed.

Lemma assign_keeps_id fields doc :
  obj_get "_id" fields = None ->
  has_native_id doc ->
  has_native_id (assign fields doc) /\
  native_id (assign fields doc) = native_id doc.
Proof.
  intros Hnone (ps & i & -> & Hid).
  destruct (assign_object fields ps) as (ps' & -> & Hkeep).
  specialize (Hkeep "_id" (obj_get_None_notin _ _ Hnone)).
  split.
  - exists ps', i. split; auto. congruence.
  - unfold native_id. simpl. congruence.
Qed.

Lemma NoDup_map_inj {A B} (f : A -> B) l x y :
  NoDup (map f l) -> In x l -> In y l -> f x = f y -> x = y.
Proof.
  induction l as [|a l IH]; simpl; [tauto|].
  intros Hnd. apply NoDup_cons in Hnd as [Hnotin Hnd].
  intros [->|Hx] [->|Hy] Heq; auto.
  - exfalso. apply Hnotin. rewrite Heq. apply list_elem_of_In, in_map, Hy.
  - exfalso. apply Hnotin. rewrite <- Heq. apply list_elem_of_In, in_map, Hx.
Qed.

(** ** The aggregate post-processing *)




(** ** The operations *)

Section OperationFacts.
Import prototype.

Variable Query : value -> res query.t.
Variable Document : value -> value -> value.
Variable self : collection value.
Context {S : Type} (d : driver S).

Local Abbreviation find := (prototype.find Query self).
Local Abbreviation insert := (prototype.insert Document self).
Local Abbreviation update := (prototype.update Query Document self).
Local Abbreviation destroy := (prototype.destroy Query self).

(** The selector an operation sends for a criteria object: its [where]. *)
Lemma where_of_object ps :
  get_prop (VObj ps) "where" = Ok (default VUndef (obj_get "where" ps)).
Proof. unfold get_prop. simpl. by destruct (obj_get "where" ps). Qed.

Lemma where_or_empty ps :
  (forall w, obj_get "where" ps = Some w -> exists wps, w = VObj wps) ->
  or_else (default VUndef (obj_get "where" ps)) (VObj [])
  = default (VObj []) (obj_get "where" ps).
Proof.
  intros Hwhere. destruct (obj_get "where" ps) as [w|]; simpl; auto.
  destruct (Hwhere w eq_refl) as [wps ->]. reflexivity.
Qed.

(** C7.  When [new Query(criteria)] raises, [find], [update] and [destroy]
    hand the raised error to the callback and do nothing else: the
    connection is not opened, the driver is not called, and nothing is
    left uncaught. *)
Theorem malformed_criteria_reported (s : S) (criteria values err : value) :
  Query criteria = Throw err ->
  run d s (find criteria) = [CalledBack err VUndef] /\
  run d s (update criteria values) = [CalledBack err VUndef] /\
  run d s (destroy criteria) = [CalledBack err VUndef].
Proof.
  intros HQ. unfold prototype.find, prototype.update, prototype.destroy.
  rewrite HQ. auto.
Qed.

(** C3.  A criteria without the aggregate flag makes [find] issue exactly
    one driver call: a [find] on the instance's collection whose selector
    is the criteria's [where] object (the empty object when there is no
    [where]) and whose options hold every other property of the criteria
    and nothing else. *)
Theorem find_plain_query (s : S) (criteria : value) (q : query.t)
    (ps : list (string * value)) :
  Query criteria = Ok q ->
  truthy (query.aggregate q) = false ->
  query.criteria q = VObj ps ->
  (forall w, obj_get "where" ps = Some w -> exists wps, w = VObj wps) ->
  exists options,
    calls (run d s (find criteria)) =
      [native.find (identity self) (default (VObj []) (obj_get "where" ps))
         (VObj options)] /\
    forall k, obj_get k options =
              if String.eqb k "where" then None else obj_get k ps.
Proof.
  intros HQ Hagg Hcrit Hwhere.
  exists (obj_delete "where" ps). split; [|intros k; apply obj_get_delete].
  unfold prototype.find. rewrite HQ, Hagg, Hcrit, where_of_object.
  cbn [eval_then]. rewrite where_or_empty by auto. unfold omit. simpl.
  destruct (reply d s _) as [s' [err docs]]; simpl.
  destruct (truthy err); reflexivity.
Qed.


(** C2, as amended.  When the driver's [remove] succeeds and reports a
    value that is not a list (the count of removed documents, or a bare
    identifier), [destroy] hands the callback the one-entry list
    [[{id: value}]], whatever the number of documents removed. *)
Theorem destroy_bare_result (s s' : S) (criteria err results : value)
    (q : query.t) (ps : list (string * value)) :
  Query criteria = Ok q ->
  query.criteria q = VObj ps ->
  let selector := default VUndef (obj_get "where" ps) in
  reply d s (native.remove (identity self) selector) = (s', (err, results)) ->
  truthy err = false ->
  isArray results = false ->
  run d s (destroy criteria) =
    [Opened; Called (native.remove (identity self) selector); Closed;
     CalledBack VNull (VArr [VObj [("id", results)]])].
Proof.
  intros HQ Hcrit selector Hreply Herr Harr.
  unfold prototype.destroy. rewrite HQ, Hcrit, where_of_object.
  cbn [eval_then run]. fold selector. rewrite Hreply. cbn [run].
  by rewrite Herr, Harr.
Qed.

(** C4.  [insert] sends the shaped values to the driver as one batch, in
    input order, a single value being a batch of one; when the driver
    acknowledges the batch with one stored record per document, each with
    its [_id], the callback receives a list with one entry per input value,
    each entry carrying [id] in place of [_id]. *)
Theorem insert_batch (s s' : S) (values err : value) (stored : list value) :
  let inputs := match values with VArr items => items | _ => [values] end in
  let docs := map (fun value => Document value (schema self)) inputs in
  reply d s (native.insert (identity self) (VArr docs)) = (s', (err, VArr stored)) ->
  truthy err = false ->
  length stored = length inputs ->
  Forall has_native_id stored ->
  exists result,
    run d s (insert values) =
      [Opened; Called (native.insert (identity self) (VArr docs)); Closed;
       CalledBack VNull (VArr result)] /\
    length result = length inputs /\
    Forall2 normalized stored result.
Proof.
  intros inputs docs Hreply Herr Hlen Hids.
  exists (map utils.rewriteId stored). split; [|split].
  - unfold prototype.insert.
    assert (Hmap : array_each "map"
                     (fun value => Ok (Document value (schema self)))
                     (if isArray values then values else VArr [values])
                   = Ok docs).
    { assert (Hgen : forall l, map_res (fun value => Ok (Document value (schema self))) l
                               = Ok (map (fun value => Document value (schema self)) l)).
      { induction l as [|x l IH]; simpl; auto. by rewrite IH. }
      subst docs inputs. destruct values; simpl; try apply Hgen; reflexivity. }
    rewrite Hmap. cbn [eval_then run]. rewrite Hreply. cbn [run].
    by rewrite Herr.
  - by rewrite length_map.
  - clear Hreply Hlen. induction Hids; simpl; constructor; auto.
    by apply rewriteId_normalized.
Qed.

(** The first steps of an [update] whose lookup finds nothing: the driver
    answers the lookup with the empty list, which is truthy, and the write
    is issued. *)
Lemma update_empty_lookup_writes (s s' : S) (criteria values err : value)
    (q : query.t) (ps : list (string * value)) (fields : value) :
  Query criteria = Ok q ->
  query.criteria q = VObj ps ->
  strip_ids (Document values (schema self)) = Ok fields ->
  let selector := default VUndef (obj_get "where" ps) in
  reply d s (native.find (identity self) selector VUndef) = (s', (err, VArr [])) ->
  truthy err = false ->
  exists rest,
    run d s (update criteria values) =
      Opened :: Called (native.find (identity self) selector VUndef)
             :: Called (native.update (identity self) selector
                          (VObj [("$set", fields)]) (VObj [("multi", VBool true)]))
             :: rest.
Proof.
  intros HQ Hcrit Hstrip selector Hreply Herr.
  unfold prototype.update. rewrite HQ, Hstrip, Hcrit. cbn [eval_then run].
  rewrite where_of_object. cbn [eval_then run]. fold selector.
  rewrite Hreply, Herr. simpl.
  destruct (reply d s' _) as [s2 [err2 r2]]. eauto.
Qed.

(** Whatever the driver answers, a callback never fires while the
    connection is open, and it fires at most once. *)
Ltac explore :=
  repeat first
    [ progress unfold eval_then, array_each, get_prop
    | progress cbn [run closed_at_callbacks List.filter is_callback negb andb
                    orb length bind nullish]
    | match goal with
      | |- context [match ?x with _ => _ end] => destruct x eqn:?
      end ];
  first [reflexivity | lia].

Lemma callback_after_close (s : S) (criteria values : value) (op : script) :
  In op [find criteria; insert values; update criteria values;
         destroy criteria] ->
  closed_at_callbacks false (run d s op) = true /\
  (callbacks (run d s op) <= 1)%nat.
Proof.
  intros [<-|[<-|[<-|[<-|[]]]]]; split;
    unfold prototype.find, prototype.insert, prototype.update,
      prototype.destroy, callbacks; explore.
Qed.

End OperationFacts.

(** ** [update] against a document store *)

Section DocumentStore.
Import prototype.

Variable Query : value -> res query.t.
Variable Document : value -> value -> value.
Variable self : collection value.
Context {S : Type} (d : driver S).

(** The driver behaves as a document store: [docs s] are the documents of
    the instance's collection, [matches] is what a selector means.  A
    [find] without options returns the matching documents; a multi-update
    whose [$set] does not touch [_id] assigns the fields in every matching
    document; [{_id: {$in: ids}}] selects by identifier. *)
Variable docs : S -> list value.
Variable matches : value -> value -> bool.

Hypothesis find_matching : forall s selector,
  reply d s (native.find (identity self) selector VUndef)
  = (s, (VNull, VArr (List.filter (matches selector) (docs s)))).

Hypothesis update_matching : forall s selector fields,
  obj_get "_id" fields = None ->
  exists s' result,
    reply d s (native.update (identity self) selector
                 (VObj [("$set", VObj fields)]) (VObj [("multi", VBool true)]))
    = (s', (VNull, result)) /\
    docs s' = map (fun doc => if matches selector doc then assign fields doc
                              else doc) (docs s).

Hypothesis matches_in : forall ids doc,
  matches (VObj [("_id", VObj [("$in", VArr ids)])]) doc = true
  <-> In (native_id doc) ids.

Lemma lookup_ids records :
  Forall has_native_id records ->
  array_each "forEach" (fun record => get_prop record "_id") (VArr records)
  = Ok (map native_id records).
Proof.
  induction 1 as [|r l (ps & i & -> & Hid) _ IH]; simpl in *; auto.
  rewrite IH. unfold get_prop, native_id. simpl. by rewrite Hid.
Qed.

Lemma refetch_by_ids selector fields ids : forall l,
  obj_get "_id" fields = None ->
  Forall has_native_id l ->
  (forall doc, In doc l -> In (native_id doc) ids <-> matches selector doc = true) ->
  List.filter (matches (VObj [("_id", VObj [("$in", VArr ids)])]))
    (map (fun doc => if matches selector doc then assign fields doc else doc) l)
  = map (assign fields) (List.filter (matches selector) l).
Proof using matches_in.
  intros l Hnone Hids. induction Hids as [|doc l Hdoc _ IH]; intros Hchar; auto.
  simpl. rewrite IH by (intros; apply Hchar; simpl; auto).
  specialize (Hchar doc (or_introl eq_refl)).
  destruct (assign_keeps_id fields doc Hnone Hdoc) as [_ Hsame].
  destruct (matches selector doc) eqn:Hm.
  - assert (Hin : matches (VObj [("_id", VObj [("$in", VArr ids)])])
                    (assign fields doc) = true).
    { apply matches_in. rewrite Hsame. by apply Hchar. }
    by rewrite Hin.
  - assert (Hout : matches (VObj [("_id", VObj [("$in", VArr ids)])]) doc = false).
    { apply not_true_is_false. intros Hin. apply matches_in, Hchar in Hin.
      congruence. }
    by rewrite Hout.
Qed.

Lemma captured_ids selector l :
  NoDup (map native_id l) ->
  forall doc, In doc l ->
    In (native_id doc) (map native_id (List.filter (matches selector) l))
    <-> matches selector doc = true.
Proof.
  intros Hnd doc Hdoc. split.
  - intros Hin. apply in_map_iff in Hin as (doc' & Heq & Hin).
    apply filter_In in Hin as [Hin Hm].
    by rewrite <- (NoDup_map_inj native_id l doc' doc Hnd Hin Hdoc Heq).
  - intros Hm. apply in_map, filter_In. auto.
Qed.

(** X20.  Where [update] does re-fetch what it updated.  The values shaped
    by the schema come out of [strip_ids] with no truthy [id] or [_id].  When
    no [_id] at all is left in them and [N] documents of a store with distinct
    identifiers match the [where] predicate, [update] looks the matches up,
    applies one multi-update to all of them, fetches the documents whose
    identifier was captured by the lookup, and hands the callback exactly
    those [N] records in their state after the update, passed through
    [utils.rewriteIds]. *)
Theorem update_refetches (s : S) (criteria values : value) (q : query.t)
    (ps fields : list (string * value)) :
  Query criteria = Ok q ->
  query.criteria q = VObj ps ->
  strip_ids (Document values (schema self)) = Ok (VObj fields) ->
  Forall has_native_id (docs s) ->
  NoDup (map native_id (docs s)) ->
  let selector := default VUndef (obj_get "where" ps) in
  let matched := List.filter (matches selector) (docs s) in
  (forall x, obj_get "id" fields = Some x -> truthy x = false) /\
  (forall x, obj_get "_id" fields = Some x -> truthy x = false) /\
  (obj_get "_id" fields = None ->
   run d s (update Query Document self criteria values) =
     [Opened;
      Called (native.find (identity self) selector VUndef);
      Called (native.update (identity self) selector
                (VObj [("$set", VObj fields)]) (VObj [("multi", VBool true)]));
      Called (native.find (identity self)
                (VObj [("_id", VObj [("$in", VArr (map native_id matched))])])
                VUndef);
      Closed;
      CalledBack VNull
        (utils.rewriteIds (VArr (map (assign fields) matched)))]).
Proof using find_matching update_matching matches_in.
  intros HQ Hcrit Hstrip Hids Hnd selector matched.
  destruct (strip_ids_object _ _ Hstrip) as [Hid H_id].
  split; [exact Hid|]. split; [exact H_id|]. intros Hnone.
  assert (Hmatched : Forall has_native_id matched).
  { apply List.Forall_forall. intros doc Hin. apply filter_In in Hin as [Hin _].
    revert doc Hin. by apply List.Forall_forall. }
  destruct (update_matching s selector fields Hnone) as (s' & result & Hupd & Hdocs).
  unfold update. rewrite HQ, Hstrip, Hcrit. cbn [eval_then run].
  rewrite where_of_object. cbn [eval_then run]. fold selector.
  rewrite find_matching. fold matched. cbn [truthy orb negb].
  rewrite lookup_ids by exact Hmatched. cbn [eval_then run].
  rewrite Hupd. cbn [truthy run]. rewrite find_matching, Hdocs.
  rewrite (refetch_by_ids selector fields (map native_id matched));
    [reflexivity | exact Hnone | exact Hids | apply captured_ids, Hnd].
Qed.

End DocumentStore.

(** ** The index descriptors *)

Section IndexFacts.
Import Heap.

(** The order of enumeration lists every property once. *)
Lemma place_perm {A} (n : N) (p : A) (l : list (N * A)) :
  Permutation (map snd (place n p l)) (p :: map snd l).
Proof.
  induction l as [|q l IH]; simpl; auto.
  destruct (n <=? fst q)%N; simpl; auto.
  rewrite IH. apply perm_swap.
Qed.

Lemma enumerate_perm {A} (ps : list (string * A)) : Permutation (enumerate ps) ps.
Proof.
  unfold enumerate, is_named. induction ps as [|p ps IH]; simpl; auto.
  destruct (array_index (fst p)) as [n|]; simpl.
  - rewrite place_perm. simpl. by constructor.
  - by rewrite <- Permutation_middle, IH.
Qed.

Lemma own_keys_In v h k : In k (own_keys v h) <-> In k (map fst (own_props v h)).
Proof.
  unfold own_keys.
  pose proof (Permutation_map fst (enumerate_perm (own_props v h))) as Hperm.
  split; apply Permutation_in; [exact Hperm|by symmetry].
Qed.

Lemma lookup_prop_In k v ps :
  NoDup (map fst ps) -> In (k, v) ps -> lookup_prop k ps = v.
Proof.
  unfold lookup_prop. induction ps as [|[k' v'] ps IH]; simpl; [intros _ []|].
  intros Hnd. apply NoDup_cons in Hnd as [Hnotin Hnd].
  intros [[= -> ->]|Hin].
  - by rewrite String.eqb_refl.
  - destruct (String.eqb k k') eqn:E; auto.
    apply String.eqb_eq in E. subst k'. exfalso. apply Hnotin.
    apply list_elem_of_In. by apply (in_map fst _ (k, v)).
Qed.

Lemma index_of_run h s ps key field :
  h !! s = Some (Obj ps) ->
  lookup_prop key ps = field ->
  field <> Undef -> field <> Null ->
  index_of (Ref s) key h = (h, Done (pushed_for h key field)).
Proof.
  intros Hs Hfield Hundef Hnull.
  assert (Hget : forall flag,
             get field flag h = (h, Done (lookup_prop flag (own_props field h)))).
  { intros flag. unfold get. destruct field; congruence. }
  assert (Hschema : get (Ref s) key h = (h, Done field)).
  { unfold get, own_props. rewrite Hs. simpl. by rewrite Hfield. }
  unfold index_of, pushed_for, flagged, bind.
  rewrite Hschema, (Hget "unique").
  destruct (truthy (lookup_prop "unique" (own_props field h))); auto.
  rewrite Hschema, (Hget "index").
  destruct (truthy (lookup_prop "index" (own_props field h))); auto.
Qed.

Lemma mapM_index_of h s ps : forall keys,
  h !! s = Some (Obj ps) ->
  Forall (fun key => lookup_prop key ps <> Undef /\ lookup_prop key ps <> Null) keys ->
  mapM (index_of (Ref s)) keys h
  = (h, Done (map (fun key => pushed_for h key (lookup_prop key ps)) keys)).
Proof.
  intros keys Hs. induction 1 as [|key keys [Hundef Hnull] _ IH]; simpl; auto.
  unfold bind at 1. rewrite (index_of_run h s ps key _ Hs eq_refl Hundef Hnull).
  unfold bind at 1. by rewrite IH.
Qed.

Lemma describes_pushed_for h key key' field :
  List.filter (describes key) (pushed_for h key' field)
  = if String.eqb key key' then pushed_for h key' field else [].
Proof.
  unfold pushed_for.
  destruct (flagged h field "unique"); [|destruct (flagged h field "index")];
    simpl; destruct (String.eqb key key'); reflexivity.
Qed.

Lemma describes_one h key field : forall ps,
  NoDup (map fst ps) -> In (key, field) ps ->
  List.filter (describes key)
    (concat (map (fun p => pushed_for h (fst p) (snd p)) ps))
  = pushed_for h key field.
Proof.
  induction ps as [|[k' f'] ps IH]; simpl; [intros _ []|].
  intros Hnd Hin. apply NoDup_cons in Hnd as [Hnotin Hnd].
  rewrite List.filter_app, describes_pushed_for.
  destruct Hin as [[= -> ->]|Hin].
  - rewrite String.eqb_refl.
    assert (Hrest : forall l, ~ In key (map fst l) ->
              List.filter (describes key)
                (concat (map (fun p => pushed_for h (fst p) (snd p)) l)) = []).
    { induction l as [|[k f] l IHl]; simpl; auto. intros Hno.
      rewrite List.filter_app, describes_pushed_for.
      destruct (String.eqb key k) eqn:E.
      - apply String.eqb_eq in E. subst k. tauto.
      - apply IHl. tauto. }
    rewrite Hrest, app_nil_r; auto.
    intros Hin. apply Hnotin. by apply list_elem_of_In.
  - destruct (String.eqb key k') eqn:E.
    + apply String.eqb_eq in E. subst k'. exfalso. apply Hnotin.
      apply list_elem_of_In. by apply (in_map fst _ (key, field)).
    + by apply IH.
Qed.

(** C10.  For a schema object whose fields hold specifications (none is
    [undefined] or [null]), [buildIndexes] succeeds and pushes, for a field
    flagged both [unique] and [index], exactly one descriptor indexing that
    field, with options [{sparse: true, unique: true}]; for a field flagged
    [index] but not [unique], exactly one descriptor, with options
    [{sparse: true}] and no [unique] property. *)
Theorem buildIndexes_one_descriptor (h : heap) (this : collection jv)
    (s : nat) (ps : list (string * jv)) :
  schema this = Ref s ->
  h !! s = Some (Obj ps) ->
  NoDup (map fst ps) ->
  Forall (fun p => snd p <> Undef /\ snd p <> Null) ps ->
  exists pushed,
    buildIndexes this h =
      (h, Done {| identity := identity this; config := config this;
                  schema := schema this;
                  indexes := (indexes this ++ pushed)%list |}) /\
    forall key field, In (key, field) ps ->
      (flagged h field "unique" = true -> flagged h field "index" = true ->
       List.filter (describes key) pushed =
         [VObj [("index", VObj [(key, VNum 1)]);
                ("options", VObj [("sparse", VBool true);
                                  ("unique", VBool true)])]]) /\
      (flagged h field "unique" = false -> flagged h field "index" = true ->
       List.filter (describes key) pushed =
         [VObj [("index", VObj [(key, VNum 1)]);
                ("options", VObj [("sparse", VBool true)])]]).
Proof.
  intros Hschema Hs Hnd Hfields.
  pose proof (enumerate_perm ps) as Hperm.
  assert (Hin : forall p, In p (enumerate ps) -> In p ps).
  { intros p. by apply Permutation_in. }
  exists (concat (map (fun p => pushed_for h (fst p) (snd p)) (enumerate ps))).
  split.
  - unfold buildIndexes, bind, keys, own_keys. rewrite Hschema.
    cbn [own_props]. rewrite Hs. cbn [props_of].
    rewrite (mapM_index_of h s ps _ Hs).
    + unfold ret. do 4 f_equal. rewrite map_map. f_equal.
      apply map_ext_in. intros [k f] Hp. simpl.
      by rewrite (lookup_prop_In k f ps Hnd (Hin _ Hp)).
    + apply List.Forall_forall. intros k Hk.
      apply in_map_iff in Hk as ([k' f] & <- & Hp). simpl.
      rewrite (lookup_prop_In k' f ps Hnd (Hin _ Hp)).
      by apply (proj1 (List.Forall_forall _ _) Hfields (k', f)), Hin.
  - intros key field Hp.
    rewrite (describes_one h key field (enumerate ps)).
    + unfold pushed_for, descriptor. split; intros Hu Hi; by rewrite Hu, ?Hi.
    + by rewrite (Permutation_map fst Hperm).
    + revert Hp. apply Permutation_in. by symmetry.
Qed.

End IndexFacts.

(** ** The constructor and the caller's objects *)

Section RegionFacts.
Import Heap.
Local Open Scope heap_scope.

Variable n : nat.

Lemma stays_ret {A} (P : A -> Prop) (a : A) : P a -> stays_from n P (ret a).
Proof. intros HP h Hn Hc. simpl. repeat split; auto. by intros ? [= <-]. Qed.

Lemma stays_throw {A} (P : A -> Prop) (e : value) : stays_from n P (throw e).
Proof. intros h Hn Hc. simpl. repeat split; auto. discriminate. Qed.

Lemma stays_bind {A B} (P : A -> Prop) (Q : B -> Prop) (m : M A) (k : A -> M B) :
  stays_from n P m ->
  (forall a, P a -> stays_from n Q (k a)) ->
  stays_from n Q (x <- m;; k x).
Proof.
  intros Hm Hk h Hn Hc. unfold bind.
  destruct (Hm h Hn Hc) as (Htake & Hlen & Hclosed & HP).
  destruct (m h) as [h1 [a|e]]; simpl in *.
  - destruct (Hk a (HP a eq_refl) h1 Hlen Hclosed) as (Htake' & ? & ? & ?).
    repeat split; auto. congruence.
  - repeat split; auto. discriminate.
Qed.

Lemma stays_mapM {A B} (Q : B -> Prop) (f : A -> M B) (l : list A) :
  (forall x, stays_from n Q (f x)) -> stays_from n (Forall Q) (mapM f l).
Proof.
  intros Hf. induction l as [|x l IH]; simpl.
  - by apply stays_ret.
  - eapply stays_bind; [apply Hf|]. intros y Hy.
    eapply stays_bind; [apply IH|]. intros ys Hys.
    apply stays_ret. by constructor.
Qed.

Lemma stays_forEach (f : string -> M unit) (keys : list string) :
  (forall key, stays_from n (fun _ => True) (f key)) ->
  stays_from n (fun _ => True) (forEach f keys).
Proof.
  intros Hf. induction keys as [|key keys IH]; simpl.
  - by apply stays_ret.
  - eapply stays_bind; [apply Hf|]. auto.
Qed.

Lemma lookup_prop_fresh k ps :
  Forall (fun p => fresh n (snd p)) ps -> fresh n (lookup_prop k ps).
Proof.
  unfold lookup_prop. induction 1 as [|[k' v] ps Hv _ IH]; simpl; auto.
  by destruct (String.eqb k k').
Qed.

Lemma str_chars_fresh ks s :
  Forall (fun p : string * jv => fresh n (snd p)) (combine ks (str_chars s)).
Proof.
  unfold str_chars. revert ks.
  induction (chars s) as [|c l IH]; intros [|k ks]; simpl; auto.
  constructor; auto. by destruct c.
Qed.

Lemma items_fresh ks items :
  Forall (fresh n) items ->
  Forall (fun p : string * jv => fresh n (snd p)) (combine ks items).
Proof.
  intros H. revert ks. induction H as [|x l Hx _ IH]; intros [|k ks]; simpl; auto.
Qed.

Lemma own_props_fresh h v :
  closed_from n h -> fresh n v ->
  Forall (fun p => fresh n (snd p)) (own_props v h).
Proof.
  intros Hc Hv. destruct v; simpl; auto.
  - apply str_chars_fresh.
  - destruct (h !! a) as [c|] eqn:E; auto. by apply (Hc a).
Qed.

Lemma stays_get v k : fresh n v -> stays_from n (fresh n) (get v k).
Proof.
  intros Hv h Hn Hc.
  assert (Hres : fresh n (lookup_prop k (own_props v h)))
    by (by apply lookup_prop_fresh, own_props_fresh).
  unfold get. destruct v; simpl; repeat split; auto;
    first [discriminate | by intros ? [= <-]].
Qed.

Lemma stays_keys v : stays_from n (fun _ => True) (keys v).
Proof.
  intros h Hn Hc. unfold keys. destruct v; simpl; repeat split; auto.
Qed.

Lemma stays_delete_prop v k :
  fresh n v -> stays_from n (fun _ => True) (delete_prop v k).
Proof.
  intros Hv h Hn Hc. unfold delete_prop.
  destruct v as [| | | | |a]; simpl; auto.
  destruct (h !! a) as [[ps|items]|] eqn:E; simpl; auto.
  simpl in Hv. repeat split; auto.
  - by apply take_insert_ge.
  - by rewrite length_insert.
  - intros a' c Ha' Hlook.
    destruct (decide (a = a')) as [<-|Hne].
    + rewrite list_lookup_insert_eq in Hlook by (by eapply lookup_lt_Some).
      injection Hlook as <-. simpl.
      specialize (Hc a (Obj ps) Hv E). simpl in Hc.
      apply List.Forall_forall. intros p Hp. apply filter_In in Hp as [Hp _].
      revert p Hp. by apply List.Forall_forall.
    + rewrite list_lookup_insert_ne in Hlook by done. by apply (Hc a').
Qed.

Lemma stays_alloc c :
  Forall (fun p => fresh n (snd p)) (props_of c) ->
  stays_from n (fresh n) (alloc c).
Proof.
  intros Hprops h Hn Hc. unfold alloc. simpl. repeat split.
  - by apply take_app_le.
  - rewrite length_app. lia.
  - intros a c' Ha Hlook.
    destruct (decide (a < length h)) as [Hlt|Hge].
    + rewrite lookup_app_l in Hlook by done. by apply (Hc a).
    + rewrite lookup_app_r in Hlook by lia.
      destruct (a - length h) as [|m] eqn:E; simpl in Hlook; [|by destruct m].
      by injection Hlook as <-.
  - by intros ? [= <-].
Qed.

Lemma stays_next_address : stays_from n (fun a => n <= a) next_address.
Proof. intros h Hn Hc. simpl. repeat split; auto. by intros ? [= <-]. Qed.

Lemma stays_store a c :
  n <= a ->
  Forall (fun p => fresh n (snd p)) (props_of c) ->
  stays_from n (fun _ => True) (store a c).
Proof.
  intros Ha Hprops h Hn Hc. unfold store. simpl. repeat split; auto.
  - by apply take_insert_ge.
  - by rewrite length_insert.
  - intros a' c' Ha' Hlook.
    destruct (decide (a = a')) as [<-|Hne].
    + destruct (decide (a < length h)) as [Hlt|Hge].
      * rewrite list_lookup_insert_eq in Hlook by done. by injection Hlook as <-.
      * rewrite list_insert_ge in Hlook by lia. by apply (Hc a).
    + rewrite list_lookup_insert_ne in Hlook by done. by apply (Hc a').
Qed.

Lemma traversed_fresh a a' (seen : memo) :
  Forall (fun p => n <= snd p) seen -> traversed a seen = Some a' -> n <= a'.
Proof.
  unfold traversed. induction 1 as [|[b b'] seen Hb _ IH]; simpl; [discriminate|].
  destruct (Nat.eqb a b); auto. by intros [= <-].
Qed.

Lemma with_props_fresh c ps :
  Forall (fun p => fresh n (snd p)) ps ->
  Forall (fun p => fresh n (snd p)) (props_of (with_props c ps)).
Proof.
  intros Hps. destruct c; simpl; auto.
  apply items_fresh. induction Hps; simpl; auto.
Qed.

Lemma stays_clone_props (clone : jv -> memo -> M (memo * jv)) :
  (forall v seen, Forall (fun p => n <= snd p) seen ->
     stays_from n (cloned n (fresh n)) (clone v seen)) ->
  forall ps seen, Forall (fun p => n <= snd p) seen ->
    stays_from n (cloned n (Forall (fun p => fresh n (snd p))))
      (clone_props clone ps seen).
Proof.
  intros Hclone. induction ps as [|p ps IH]; intros seen Hseen; simpl.
  - apply stays_ret. by split.
  - eapply stays_bind; [by apply Hclone|]. intros r [Hr1 Hr2].
    eapply stays_bind; [by apply IH|]. intros rs [Hrs1 Hrs2].
    apply stays_ret. split; simpl; auto.
Qed.

Lemma stays_baseClone depth source :
  n <= length source ->
  forall v seen, Forall (fun p => n <= snd p) seen ->
    stays_from n (cloned n (fresh n)) (baseClone depth source v seen).
Proof.
  intros Hsource. induction depth as [|depth IH]; intros v seen Hseen;
    (destruct v as [| | | | |a]; try (apply stays_ret; by split)); simpl;
    destruct (traversed a seen) as [a'|] eqn:Ht;
    try (apply stays_ret; split; simpl; auto; by eapply traversed_fresh);
    destruct (source !! a) as [c|] eqn:Hs;
    try (apply stays_ret; split; simpl; auto;
         apply lookup_ge_None in Hs; lia).
  - apply stays_throw.
  - eapply stays_bind; [apply stays_next_address|]. intros a' Ha'.
    eapply stays_bind; [apply stays_alloc; by destruct c|]. intros _ _.
    eapply stays_bind.
    { apply (stays_clone_props _ IH). constructor; auto. }
    intros r [Hr1 Hr2].
    eapply stays_bind; [by apply stays_store, with_props_fresh|]. intros _ _.
    apply stays_ret. by split.
Qed.

Lemma stays_cloneDeep v : stays_from n (fresh n) (cloneDeep v).
Proof.
  intros h Hn Hc. unfold cloneDeep.
  refine (stays_bind (cloned n (fresh n)) _ _ _ _ _ h Hn Hc).
  - by apply stays_baseClone.
  - intros r [_ Hr]. by apply stays_ret.
Qed.

Lemma stays_toLowerCase v : stays_from n (fun _ => True) (toLowerCase v).
Proof. destruct v; first [by apply stays_ret | apply stays_throw]. Qed.

Lemma stays_index_of schema_ key :
  fresh n schema_ -> stays_from n (fun _ => True) (index_of schema_ key).
Proof.
  intros Hs. unfold index_of.
  eapply stays_bind; [by apply stays_get|]. intros field Hfield.
  eapply stays_bind; [by apply stays_get|]. intros unique _.
  destruct (truthy unique); [by apply stays_ret|].
  eapply stays_bind; [by apply stays_get|]. intros field' Hfield'.
  eapply stays_bind; [by apply stays_get|]. intros index _.
  destruct (truthy index); by apply stays_ret.
Qed.

Lemma stays_buildIndexes this :
  fresh n (schema this) ->
  stays_from n (fun this' => fresh n (schema this')) (buildIndexes this).
Proof.
  intros Hs. unfold buildIndexes.
  eapply stays_bind; [apply stays_keys|]. intros schema_keys _.
  eapply stays_bind.
  - apply (stays_mapM (fun _ => True)). intros key. by apply stays_index_of.
  - intros pushed _. by apply stays_ret.
Qed.

Variable parseUrl : jv -> M jv.
Hypothesis parseUrl_local : local parseUrl.

Lemma stays_parseDefinition this definition :
  stays_from n (fun this' => fresh n (schema this'))
    (parseDefinition parseUrl this definition).
Proof using parseUrl_local.
  unfold parseDefinition.
  eapply stays_bind; [apply stays_cloneDeep|]. intros collectionDef Hdef.
  eapply stays_bind; [by apply stays_get|]. intros config_ Hconfig.
  eapply stays_bind; [by apply parseUrl_local|]. intros config' _.
  eapply stays_bind; [by apply stays_get|]. intros schema' Hschema.
  eapply stays_bind; [apply stays_keys|]. intros schema_keys _.
  eapply stays_bind.
  - apply stays_forEach. intros key.
    eapply stays_bind; [by apply stays_get|]. intros field Hfield.
    eapply stays_bind; [by apply stays_get|]. intros autoIncrement _.
    destruct (truthy autoIncrement); [|by apply stays_ret].
    eapply stays_bind; [by apply stays_get|]. intros field' Hfield'.
    by apply stays_delete_prop.
  - intros _ _.
    eapply stays_bind; [by apply stays_get|]. intros identity_ _.
    eapply stays_bind; [apply stays_toLowerCase|]. intros identity' _.
    by apply stays_ret.
Qed.

Lemma stays_Collection definition :
  stays_from n (fun this => fresh n (schema this))
    (Collection parseUrl definition).
Proof using parseUrl_local.
  unfold Collection.
  eapply stays_bind; [by apply (stays_alloc (Obj []))|]. intros config0 _.
  eapply stays_bind; [apply stays_parseDefinition|]. intros this Hthis.
  eapply stays_bind; [by apply stays_buildIndexes|]. intros this' Hthis'.
  by apply stays_ret.
Qed.

End RegionFacts.

(** [_.cloneDeep] always returns: every object it descends into is a new
    entry of the stack of traversed objects, and the heap has only so many
    objects, so the depth it is given is never used up. *)
Section CloneTerminates.
Import Heap.

Variable source : heap.

Lemma bounded_length (l : list nat) (m : nat) :
  NoDup l -> (forall a, In a l -> a < m) -> length l <= m.
Proof.
  intros Hnd Hlt.
  assert (H : length l <= length (seq 0 m)).
  { apply List.NoDup_incl_length; [by apply NoDup_ListNoDup|].
    unfold incl. intros a Ha. apply in_seq. specialize (Hlt a Ha). lia. }
  by rewrite length_seq in H.
Qed.

Lemma traversed_None a (seen : memo) :
  traversed a seen = None -> ~ In a (map fst seen).
Proof.
  unfold traversed. induction seen as [|[b b'] seen IH]; simpl; [tauto|].
  destruct (Nat.eqb a b) eqn:E; [discriminate|].
  apply Nat.eqb_neq in E. intros H [Heq|Hin]; [congruence|tauto].
Qed.

Lemma clone_props_total (clone : jv -> memo -> M (memo * jv)) (depth : nat) :
  (forall v seen h,
     NoDup (map fst seen) -> (forall a, In a (map fst seen) -> a < length source) ->
     length source - length seen < depth ->
     exists h' seen' v',
       clone v seen h = (h', Done (seen', v')) /\
       NoDup (map fst seen') /\
       (forall a, In a (map fst seen') -> a < length source) /\
       length seen <= length seen') ->
  forall ps seen h,
    NoDup (map fst seen) -> (forall a, In a (map fst seen) -> a < length source) ->
    length source - length seen < depth ->
    exists h' seen' ps',
      clone_props clone ps seen h = (h', Done (seen', ps')) /\
      NoDup (map fst seen') /\
      (forall a, In a (map fst seen') -> a < length source) /\
      length seen <= length seen'.
Proof.
  intros Hclone. induction ps as [|p ps IH]; intros seen h Hnd Hlt Hdepth; simpl.
  - exists h, seen, []. repeat split; auto.
  - destruct (Hclone (snd p) seen h Hnd Hlt Hdepth)
      as (h1 & seen1 & v1 & Hrun1 & Hnd1 & Hlt1 & Hlen1).
    destruct (IH seen1 h1 Hnd1 Hlt1 ltac:(lia))
      as (h2 & seen2 & ps2 & Hrun2 & Hnd2 & Hlt2 & Hlen2).
    exists h2, seen2, ((fst p, v1) :: ps2).
    unfold bind at 1. rewrite Hrun1. unfold bind at 1. simpl. rewrite Hrun2.
    simpl. repeat split; auto. lia.
Qed.

Lemma baseClone_total depth : forall v seen h,
  NoDup (map fst seen) -> (forall a, In a (map fst seen) -> a < length source) ->
  length source - length seen < depth ->
  exists h' seen' v',
    baseClone depth source v seen h = (h', Done (seen', v')) /\
    NoDup (map fst seen') /\
    (forall a, In a (map fst seen') -> a < length source) /\
    length seen <= length seen'.
Proof.
  induction depth as [|depth IH]; intros v seen h Hnd Hlt Hdepth; [lia|].
  destruct v as [| | | | |a];
    try (exists h, seen; eexists; repeat split; eauto; fail).
  simpl. destruct (traversed a seen) as [a'|] eqn:Ht.
  { exists h, seen, (Ref a'). repeat split; auto. }
  destruct (source !! a) as [c|] eqn:Hs.
  2: { exists h, seen, (Ref a). repeat split; auto. }
  assert (Ha : a < length source) by (by eapply lookup_lt_Some).
  assert (Hnd1 : NoDup (map fst ((a, length h) :: seen))).
  { simpl. apply NoDup_cons. split; auto.
    intros Hin. apply list_elem_of_In in Hin. by apply traversed_None in Ht. }
  assert (Hlt1 : forall b, In b (map fst ((a, length h) :: seen)) ->
                           b < length source).
  { simpl. intros b [<-|Hb]; auto. }
  pose proof (bounded_length _ _ Hnd1 Hlt1) as Hroom.
  rewrite length_map in Hroom. simpl in Hroom.
  destruct (clone_props_total (baseClone depth source) depth IH (props_of c)
              ((a, length h) :: seen) (h ++ [empty_like c])%list Hnd1 Hlt1)
    as (h2 & seen2 & ps2 & Hrun & Hnd2 & Hlt2 & Hlen2).
  { simpl. lia. }
  eexists _, seen2, (Ref (length h)).
  unfold bind, next_address, alloc, store, ret. rewrite Hrun. simpl.
  repeat split; eauto. simpl in Hlen2. lia.
Qed.

End CloneTerminates.

Lemma cloneDeep_returns (v : Heap.jv) (h : Heap.heap) :
  exists h' v', Heap.cloneDeep v h = (h', Heap.Done v').
Proof.
  destruct (baseClone_total h (S (length h)) v [] h) as (h' & seen & v' & Hrun & _).
  - constructor.
  - intros a [].
  - simpl. lia.
  - exists h', v'. unfold Heap.cloneDeep, Heap.bind. by rewrite Hrun.
Qed.

(** C9.  Whatever the constructor does with a definition, and however it
    ends, every object that existed when it was called is unchanged
    afterwards: the definition is deep-cloned first, and the schema the
    instance holds (the one that lost its [autoIncrement] flags) is an
    object of the clone, not one of the caller's. *)
Theorem Collection_keeps_definition (parseUrl : Heap.jv -> Heap.M Heap.jv)
    (h : Heap.heap) (definition : Heap.jv) :
  local parseUrl ->
  (forall a c, h !! a = Some c ->
     fst (Collection parseUrl definition h) !! a = Some c) /\
  (forall this, snd (Collection parseUrl definition h) = Heap.Done this ->
     fresh (length h) (schema this)).
Proof.
  intros Hlocal.
  destruct (stays_Collection (length h) parseUrl Hlocal definition h)
    as (Htake & Hlen & _ & Hfresh); auto.
  { intros a c Ha Hlook. apply lookup_lt_Some in Hlook. lia. }
  split; auto. intros a c Hlook.
  assert (Ha : a < length h) by (by eapply lookup_lt_Some).
  rewrite <- (lookup_take_lt _ (length h)) by done.
  rewrite Htake, take_ge by done. exact Hlook.
Qed.

(** ** The operations on concrete inputs *)

Lemma malformed_criteria_reported_witness :
  sample.Query (VNum 7) = Throw (Error "Invalid criteria") /\
  run scripted [] (prototype.find sample.Query sample.users (VNum 7))
  = [CalledBack (Error "Invalid criteria") VUndef] /\
  run scripted []
    (prototype.update sample.Query sample.Document sample.users (VNum 7) (VObj []))
  = [CalledBack (Error "Invalid criteria") VUndef] /\
  run scripted [] (prototype.destroy sample.Query sample.users (VNum 7))
  = [CalledBack (Error "Invalid criteria") VUndef].
Proof.
  split; [reflexivity|].
  apply (malformed_criteria_reported sample.Query sample.Document sample.users
           scripted [] (VNum 7) (VObj []) (Error "Invalid criteria")).
  reflexivity.
Defined.

Lemma find_plain_query_witness :
  exists options,
    calls (run scripted [(VNull, VArr [sample.ann])]
             (prototype.find sample.Query sample.users
                (VObj [("where", VObj [("name", VStr "a")]); ("limit", VNum 3)])))
    = [native.find "user" (VObj [("name", VStr "a")]) (VObj options)] /\
    forall k, obj_get k options =
              if String.eqb k "where" then None
              else obj_get k [("where", VObj [("name", VStr "a")]);
                              ("limit", VNum 3)].
Proof.
  apply (find_plain_query sample.Query sample.users scripted
           [(VNull, VArr [sample.ann])] _
           {| query.criteria := VObj [("where", VObj [("name", VStr "a")]);
                                      ("limit", VNum 3)];
              query.aggregate := VUndef; query.aggregateGroup := VUndef |}
           [("where", VObj [("name", VStr "a")]); ("limit", VNum 3)]);
    try reflexivity.
  intros w [= <-]. eauto.
Defined.


Lemma destroy_bare_result_witness :
  run scripted [(VNull, VNum 1)]
    (prototype.destroy sample.Query sample.users (sample.named "a"))
  = [Opened; Called (native.remove "user" (VObj [("name", VStr "a")])); Closed;
     CalledBack VNull (VArr [VObj [("id", VNum 1)]])].
Proof.
  apply (destroy_bare_result sample.Query sample.users scripted
           [(VNull, VNum 1)] [] (sample.named "a") VNull (VNum 1)
           {| query.criteria := sample.named "a"; query.aggregate := VUndef;
              query.aggregateGroup := VUndef |}
           [("where", VObj [("name", VStr "a")])]);
    reflexivity.
Defined.

Lemma insert_batch_witness :
  exists result,
    run scripted [(VNull, VArr [sample.ann; sample.bob])]
      (prototype.insert sample.Document sample.users
         (VArr [VObj [("name", VStr "a")]; VObj [("name", VStr "b")]]))
    = [Opened;
       Called (native.insert "user"
                 (VArr [VObj [("name", VStr "a")]; VObj [("name", VStr "b")]]));
       Closed; CalledBack VNull (VArr result)] /\
    length result = 2 /\
    Forall2 normalized [sample.ann; sample.bob] result.
Proof.
  apply (insert_batch sample.Document sample.users scripted
           [(VNull, VArr [sample.ann; sample.bob])] []
           (VArr [VObj [("name", VStr "a")]; VObj [("name", VStr "b")]])
           VNull [sample.ann; sample.bob]);
    try reflexivity.
  repeat constructor; eexists _, _; split; reflexivity.
Defined.

(** C2 as stated fails where the driver reports a count: three documents
    removed, and the list handed to the callback has one entry. *)
Lemma destroy_count_counterexample :
  exists result,
    run scripted [(VNull, VNum 3)]
      (prototype.destroy sample.Query sample.users (sample.named "a"))
    = [Opened; Called (native.remove "user" (VObj [("name", VStr "a")])); Closed;
       CalledBack VNull (VArr result)] /\
    length result <> 3.
Proof. exists [VObj [("id", VNum 3)]]. split; [reflexivity|discriminate]. Qed.

(** C6: the documents are grouped by two fields, one of them called [_id],
    and the driver returns the group [{_id: {_id: 3, a: 1}, n: 2}].  The
    first turn of the loop overwrites [result._id] with the grouped value
    [3]; the second reads [a] from that [3] and stores [undefined]; the
    [delete] then removes the grouped [_id] as well.  The callback receives
    [{n: 2, a: undefined}]: both grouped values are lost, and the record is
    not the group flattened, which would be [{n: 2, _id: 3, a: 1}]. *)
Theorem find_aggregate_loses_grouped :
  run scripted
    [(VNull, VArr [VObj [("_id", VObj [("_id", VNum 3); ("a", VNum 1)]);
                         ("n", VNum 2)]])]
    (prototype.find sample.Query sample.users
       (VObj [("aggregate", VBool true);
              ("aggregateGroup",
               VObj [("_id", VObj [("_id", VStr "$_id"); ("a", VStr "$a")]);
                     ("n", VObj [("$sum", VNum 1)])])]))
  = [Opened;
     Called (native.aggregate "user"
               (VArr [VObj [("$match", VObj [])];
                      VObj [("$group",
                             VObj [("_id", VObj [("_id", VStr "$_id");
                                                 ("a", VStr "$a")]);
                                   ("n", VObj [("$sum", VNum 1)])])]]));
     Closed;
     CalledBack VNull (VArr [VObj [("n", VNum 2); ("a", VUndef)]])] /\
  ~ flat (VObj [("_id", VObj [("_id", VNum 3); ("a", VNum 1)]); ("n", VNum 2)])
      (VObj [("n", VNum 2); ("a", VUndef)]) /\
  flat (VObj [("_id", VObj [("_id", VNum 3); ("a", VNum 1)]); ("n", VNum 2)])
    (VObj [("n", VNum 2); ("_id", VNum 3); ("a", VNum 1)]).
Proof.
  split; [reflexivity|]. split.
  - intros (ps & i & ps' & [= <-] & [= <-] & [= <-] & Hkeys & _).
    specialize (Hkeys "a" (VNum 1) eq_refl). discriminate.
  - eexists _, _, _. split; [reflexivity|]. split; [reflexivity|].
    split; [reflexivity|]. split; [|discriminate].
    intros k v. simpl.
    destruct (String.eqb k "_id") eqn:E1.
    + apply String.eqb_eq in E1. subst k. by intros [= <-].
    + destruct (String.eqb k "a") eqn:E2; [|discriminate].
      apply String.eqb_eq in E2. subst k. by intros [= <-].
Qed.

(** C1: no document is named "a", the lookup returns the empty list, and
    the multi-update is sent all the same; the callback receives no error
    but an empty result. *)
Theorem update_without_match_writes :
  run sample.store [sample.zoe]
    (prototype.update sample.Query sample.Document sample.users
       (sample.named "a") (VObj [("name", VStr "b")]))
  = [Opened;
     Called (native.find "user" (VObj [("name", VStr "a")]) VUndef);
     Called (native.update "user" (VObj [("name", VStr "a")])
               (VObj [("$set", VObj [("name", VStr "b")])])
               (VObj [("multi", VBool true)]));
     Called (native.find "user" (VObj [("_id", VObj [("$in", VArr [])])]) VUndef);
     Closed;
     CalledBack VNull (VArr [])].
Proof. reflexivity. Qed.

(** C8: two runs in which the connection is closed and the callback never
    fires.  An aggregate [find] whose driver call fails maps over the
    missing results; a [destroy] whose driver call reports a list reads the
    undeclared [resultArray]. *)
Theorem callback_never_fires :
  run scripted [(Error "exception: bad group", VUndef)]
    (prototype.find sample.Query sample.users (sample.grouping "age"))
  = [Opened; Called (native.aggregate "user" (sample.pipeline "age")); Closed;
     Uncaught (TypeError "Cannot read property 'map' of undefined")] /\
  run scripted [(VNull, VArr [VNum 1; VNum 2])]
    (prototype.destroy sample.Query sample.users (sample.named "a"))
  = [Opened; Called (native.remove "user" (VObj [("name", VStr "a")])); Closed;
     Uncaught (ReferenceError "resultArray is not defined")].
Proof. split; reflexivity. Qed.

(** The sample store keeps the contract of a document store. *)
Lemma store_find_matching (s : list value) (selector : value) :
  reply sample.store s (native.find "user" selector VUndef)
  = (s, (VNull, VArr (List.filter (sample.matches selector) s))).
Proof. reflexivity. Qed.

Lemma store_update_matching (s : list value) (selector : value)
    (fields : list (string * value)) :
  obj_get "_id" fields = None ->
  exists s' result,
    reply sample.store s
      (native.update "user" selector (VObj [("$set", VObj fields)])
         (VObj [("multi", VBool true)]))
    = (s', (VNull, result)) /\
    s' = map (fun doc => if sample.matches selector doc then assign fields doc
                         else doc) s.
Proof. intros Hnone. simpl. rewrite Hnone. eauto. Qed.

Lemma store_matches_in (ids : list value) (doc : value) :
  sample.matches (VObj [("_id", VObj [("$in", VArr ids)])]) doc = true
  <-> In (native_id doc) ids.
Proof.
  unfold sample.matches, sample.condition, native_id. simpl.
  rewrite andb_true_r. apply existsb_value_eqb.
Qed.

Lemma update_refetches_witness :
  run sample.store [sample.ann; sample.zoe]
    (prototype.update sample.Query sample.Document sample.users
       (sample.named "a") (VObj [("name", VStr "b"); ("id", VNum 7)]))
  = [Opened;
     Called (native.find "user" (VObj [("name", VStr "a")]) VUndef);
     Called (native.update "user" (VObj [("name", VStr "a")])
               (VObj [("$set", VObj [("name", VStr "b")])])
               (VObj [("multi", VBool true)]));
     Called (native.find "user"
               (VObj [("_id", VObj [("$in", VArr [VNum 1])])]) VUndef);
     Closed;
     CalledBack VNull (VArr [VObj [("name", VStr "b"); ("id", VNum 1)]])].
Proof.
  refine (proj2 (proj2
    (update_refetches sample.Query sample.Document sample.users sample.store
       (fun s => s) sample.matches
       store_find_matching store_update_matching store_matches_in
       [sample.ann; sample.zoe] (sample.named "a")
       (VObj [("name", VStr "b"); ("id", VNum 7)])
       {| query.criteria := sample.named "a"; query.aggregate := VUndef;
          query.aggregateGroup := VUndef |}
       [("where", VObj [("name", VStr "a")])] [("name", VStr "b")]
       eq_refl eq_refl eq_refl _ _)) eq_refl).
  - repeat constructor; eexists _, _; split; reflexivity.
  - repeat constructor; simpl; intros H; inversion H; subst;
      match goal with
      | H : _ ∈ [] |- _ => inversion H
      | H : _ ∈ [_] |- _ => inversion H; subst;
                            match goal with H' : _ ∈ [] |- _ => inversion H' end
      end.
Defined.

(** C5: the caller's values carry an identifier that is falsy.  The guards
    [if(values.id)] and [if(values._id)] test the value, not the presence,
    of the field, so it is not stripped.  With [_id: 0] the [$set] document
    that reaches the store modifies [_id], the store refuses the write, and
    the callback receives its error; with [id: 0] the [$set] document
    carries [id: 0] to the store, which applies it. *)
Theorem update_sends_falsy_id :
  run sample.store [sample.ann; sample.zoe]
    (prototype.update sample.Query sample.Document sample.users
       (sample.named "a") (VObj [("name", VStr "b"); ("_id", VNum 0)]))
  = [Opened;
     Called (native.find "user" (VObj [("name", VStr "a")]) VUndef);
     Called (native.update "user" (VObj [("name", VStr "a")])
               (VObj [("$set", VObj [("name", VStr "b"); ("_id", VNum 0)])])
               (VObj [("multi", VBool true)]));
     Closed;
     CalledBack (Error "Mod on _id not allowed") VUndef] /\
  calls (run sample.store [sample.ann; sample.zoe]
           (prototype.update sample.Query sample.Document sample.users
              (sample.named "a") (VObj [("name", VStr "b"); ("id", VNum 0)])))
  = [native.find "user" (VObj [("name", VStr "a")]) VUndef;
     native.update "user" (VObj [("name", VStr "a")])
       (VObj [("$set", VObj [("name", VStr "b"); ("id", VNum 0)])])
       (VObj [("multi", VBool true)]);
     native.find "user" (VObj [("_id", VObj [("$in", VArr [VNum 1])])]) VUndef].
Proof. split; reflexivity. Qed.

(** ** The constructor on a concrete definition *)

Lemma parseUrl_local : local sample.parseUrl.
Proof. intros n v Hv. by apply stays_ret. Qed.

Lemma buildIndexes_one_descriptor_witness :
  exists pushed,
    buildIndexes {| identity := "user"; config := Heap.Ref 3;
                    schema := Heap.Ref 2; indexes := [] |} sample.caller
    = (sample.caller,
       Heap.Done {| identity := "user"; config := Heap.Ref 3;
                    schema := Heap.Ref 2; indexes := pushed |}) /\
    List.filter (describes "id") pushed
    = [VObj [("index", VObj [("id", VNum 1)]);
             ("options", VObj [("sparse", VBool true); ("unique", VBool true)])]] /\
    List.filter (describes "name") pushed
    = [VObj [("index", VObj [("name", VNum 1)]);
             ("options", VObj [("sparse", VBool true)])]].
Proof.
  destruct (buildIndexes_one_descriptor sample.caller
              {| identity := "user"; config := Heap.Ref 3;
                 schema := Heap.Ref 2; indexes := [] |}
              2 [("id", Heap.Ref 0); ("name", Heap.Ref 1)] eq_refl eq_refl)
    as (pushed & Hrun & Hpushed).
  - repeat constructor; simpl; intros H; inversion H; subst;
      match goal with H' : _ ∈ [] |- _ => inversion H' end.
  - repeat constructor; discriminate.
  - exists pushed. split; [exact Hrun|]. split.
    + apply (Hpushed "id" (Heap.Ref 0)); [simpl; auto|reflexivity|reflexivity].
    + apply (Hpushed "name" (Heap.Ref 1)); [simpl; auto|reflexivity|reflexivity].
Defined.

Lemma Collection_keeps_definition_witness :
  local sample.parseUrl /\
  (forall a c, sample.caller !! a = Some c ->
     fst (Collection sample.parseUrl (Heap.Ref 4) sample.caller) !! a = Some c) /\
  snd (Collection sample.parseUrl (Heap.Ref 4) sample.caller)
  = Heap.Done
      {| identity := "user"; config := Heap.Ref 7; schema := Heap.Ref 8;
         indexes := [descriptor "id" [("sparse", VBool true); ("unique", VBool true)];
                     descriptor "name" [("sparse", VBool true)]] |} /\
  fst (Collection sample.parseUrl (Heap.Ref 4) sample.caller) !! 9
  = Some (Heap.Obj [("type", Heap.Str "integer"); ("unique", Heap.Bool true);
                    ("index", Heap.Bool true)]) /\
  fst (Collection sample.parseUrl (Heap.Ref 4) sample.caller) !! 0
  = Some (Heap.Obj [("type", Heap.Str "integer");
                    ("autoIncrement", Heap.Bool true);
                    ("unique", Heap.Bool true); ("index", Heap.Bool true)]).
Proof.
  split; [exact parseUrl_local|]. split; [|repeat split; reflexivity].
  exact (proj1 (Collection_keeps_definition sample.parseUrl sample.caller
                  (Heap.Ref 4) parseUrl_local)).
Defined.

(** * Further properties of the operations *)

Lemma map_res_total (f : value -> value) (items : list value) :
  map_res (fun x => Ok (f x)) items = Ok (map f items).
Proof. induction items as [|x l IH]; simpl; auto. by rewrite IH. Qed.


Section OperationPaths.
Import prototype.

Variable Query : value -> res query.t.
Variable Document : value -> value -> value.
Variable self : collection value.
Context {S : Type} (d : driver S).

Local Abbreviation find := (prototype.find Query self).
Local Abbreviation insert := (prototype.insert Document self).
Local Abbreviation update := (prototype.update Query Document self).
Local Abbreviation destroy := (prototype.destroy Query self).

Ltac walk :=
  repeat first
    [ progress unfold eval_then, array_each, get_prop
    | progress cbn [run connection_used_well calls_go_to negb andb orb bind
                    nullish collection_of]
    | match goal with
      | |- context [match ?x with _ => _ end] => destruct x eqn:?
      end ];
  repeat split; reflexivity.

(** X1.  Whatever the criteria, the values and the driver's replies, no
    operation calls back while its connection is open, and none calls back
    twice. *)
Theorem operations_report_after_close (s : S) (criteria values : value) :
  Forall (fun op => closed_at_callbacks false (run d s op) = true /\
                    (callbacks (run d s op) <= 1)%nat)
    [find criteria; insert values; update criteria values; destroy criteria].
Proof.
  apply List.Forall_forall. intros op Hin.
  exact (callback_after_close Query Document self d s criteria values op Hin).
Qed.

(** X2.  Whatever the criteria, the values and the driver's replies, an
    operation opens its connection at most once and before anything else
    it does with it, calls the driver only while the connection is open,
    closes it at most once, and sends every driver call to the collection
    named by the instance's identity. *)
Theorem operations_use_connection_well (s : S) (criteria values : value) :
  Forall (fun op => connection_used_well Before (run d s op) = true /\
                    calls_go_to (identity self) (run d s op))
    [find criteria; insert values; update criteria values; destroy criteria].
Proof.
  apply List.Forall_forall. intros op [<-|[<-|[<-|[<-|[]]]]]; split;
    unfold prototype.find, prototype.insert, prototype.update,
      prototype.destroy; walk.
Qed.

(** X3.  A [find] without the aggregate flag sends [where || {}] (the
    empty selector also for a [where] that is [null], [0] or the empty
    string) with the rest of the criteria as options, closes, and reports:
    the driver's error alone when there is one, otherwise the documents
    passed through [utils.rewriteIds]. *)
Theorem find_plain_reports (s s' : S) (criteria err docs : value) (q : query.t)
    (ps : list (string * value)) :
  Query criteria = Ok q ->
  truthy (query.aggregate q) = false ->
  query.criteria q = VObj ps ->
  let call :=
    native.find (identity self)
      (or_else (default VUndef (obj_get "where" ps)) (VObj []))
      (VObj (obj_delete "where" ps)) in
  reply d s call = (s', (err, docs)) ->
  run d s (find criteria) = [Opened; Called call; Closed; report err docs].
Proof.
  intros HQ Hagg Hcrit call Hreply.
  unfold prototype.find. rewrite HQ, Hagg, Hcrit, where_of_object.
  cbn [eval_then run]. unfold omit. cbn [own_props]. fold call.
  rewrite Hreply. cbn [run]. unfold report. by destruct (truthy err).
Qed.

(** X4.  [insert] makes one driver call whatever the values are (a single
    value, a list, the empty list): the batch of the shaped values in input
    order; it then closes and reports the driver's error alone, or the
    driver's result passed through [utils.rewriteIds]. *)
Theorem insert_reports (s s' : S) (values err results : value) :
  let inputs := match values with VArr items => items | _ => [values] end in
  let call :=
    native.insert (identity self)
      (VArr (map (fun value => Document value (schema self)) inputs)) in
  reply d s call = (s', (err, results)) ->
  run d s (insert values) = [Opened; Called call; Closed; report err results].
Proof.
  intros inputs call Hreply. unfold prototype.insert.
  assert (Hmap : array_each "map"
                   (fun value => Ok (Document value (schema self)))
                   (if isArray values then values else VArr [values])
                 = Ok (map (fun value => Document value (schema self)) inputs)).
  { subst inputs. destruct values; simpl; try apply map_res_total; reflexivity. }
  rewrite Hmap. cbn [eval_then run]. fold call. rewrite Hreply. cbn [run].
  unfold report. by destruct (truthy err).
Qed.

(** X6.  [destroy] sends the criteria's [where] as it is ([undefined] when
    there is none) and the reply decides the rest: an error is reported
    alone; a reply that is a list, even the empty one, ends in the
    ReferenceError and no callback; any other reply [r] is reported as
    [[{id: r}]]. *)
Theorem destroy_reports (s s' : S) (criteria err results : value) (q : query.t)
    (ps : list (string * value)) :
  Query criteria = Ok q ->
  query.criteria q = VObj ps ->
  let call := native.remove (identity self) (default VUndef (obj_get "where" ps)) in
  reply d s call = (s', (err, results)) ->
  run d s (destroy criteria) =
    [Opened; Called call; Closed;
     if truthy err then CalledBack err VUndef
     else if isArray results then
       Uncaught (ReferenceError "resultArray is not defined")
     else CalledBack VNull (VArr [VObj [("id", results)]])].
Proof.
  intros HQ Hcrit call Hreply.
  unfold prototype.destroy. rewrite HQ, Hcrit, where_of_object.
  cbn [eval_then run]. fold call. rewrite Hreply. cbn [run].
  destruct (truthy err); [reflexivity|].
  destruct results; try reflexivity.
  cbn [isArray negb array_each]. by rewrite map_res_total.
Qed.

Lemma captured_native_ids (records : list value) :
  Forall (fun record => nullish record = false) records ->
  array_each "forEach" (fun record => get_prop record "_id") (VArr records)
  = Ok (map native_id records).
Proof.
  induction 1 as [|r l Hr _ IH]; simpl in *; auto.
  rewrite IH. unfold get_prop. by rewrite Hr.
Qed.

(** X7.  When the lookup of [update] fails, or hands over no list at all
    ([null], [undefined]), nothing is written: the lookup is the only
    driver call, the connection is closed, and the callback receives the
    driver's error, or else the 'Could not find any records to update'
    error. *)
Theorem update_lookup_failure (s s' : S) (criteria values fields err records : value)
    (q : query.t) (ps : list (string * value)) :
  Query criteria = Ok q ->
  query.criteria q = VObj ps ->
  strip_ids (Document values (schema self)) = Ok fields ->
  let lookup :=
    native.find (identity self) (default VUndef (obj_get "where" ps)) VUndef in
  reply d s lookup = (s', (err, records)) ->
  truthy err || negb (truthy records) = true ->
  run d s (update criteria values) =
    [Opened; Called lookup; Closed;
     if truthy err then CalledBack err VUndef
     else CalledBack (Error "Could not find any records to update") VUndef].
Proof.
  intros HQ Hcrit Hstrip lookup Hreply Hfail.
  unfold prototype.update. rewrite HQ, Hstrip, Hcrit. cbn [eval_then run].
  rewrite where_of_object. cbn [eval_then run]. fold lookup.
  rewrite Hreply, Hfail. cbn [run]. by destruct (truthy err).
Qed.

(** X8.  When the lookup of [update] returns a list of records, the
    multi-update [{$set: values}] is sent with the same selector and the
    option [{multi: true}].  If it fails, the connection is closed and its
    error reported, and nothing is fetched.  If it succeeds, the documents
    whose [_id] is among those read off the looked-up records are fetched,
    the connection is closed, and the fetch is reported: its error alone,
    or its documents passed through [utils.rewriteIds]. *)
Theorem update_after_lookup (s s1 s2 s3 : S)
    (criteria values fields err1 err2 result2 err3 records3 : value)
    (q : query.t) (ps : list (string * value)) (records : list value) :
  Query criteria = Ok q ->
  query.criteria q = VObj ps ->
  strip_ids (Document values (schema self)) = Ok fields ->
  let selector := default VUndef (obj_get "where" ps) in
  let lookup := native.find (identity self) selector VUndef in
  let write :=
    native.update (identity self) selector (VObj [("$set", fields)])
      (VObj [("multi", VBool true)]) in
  let fetch :=
    native.find (identity self)
      (VObj [("_id", VObj [("$in", VArr (map native_id records))])]) VUndef in
  reply d s lookup = (s1, (err1, VArr records)) ->
  truthy err1 = false ->
  Forall (fun record => nullish record = false) records ->
  reply d s1 write = (s2, (err2, result2)) ->
  reply d s2 fetch = (s3, (err3, records3)) ->
  run d s (update criteria values) =
    Opened :: Called lookup :: Called write ::
      (if truthy err2 then [Closed; CalledBack err2 VUndef]
       else [Called fetch; Closed; report err3 records3]).
Proof.
  intros HQ Hcrit Hstrip selector lookup write fetch Hlookup Herr1 Hrecords
    Hwrite Hfetch.
  unfold prototype.update. rewrite HQ, Hstrip, Hcrit. cbn [eval_then run].
  rewrite where_of_object. cbn [eval_then run]. fold selector lookup.
  rewrite Hlookup, Herr1. cbn [truthy orb negb].
  rewrite captured_native_ids by exact Hrecords. cbn [eval_then run].
  fold write. rewrite Hwrite.
  destruct (truthy err2); [reflexivity|].
  cbn [run]. fold fetch. rewrite Hfetch. cbn [run].
  unfold report. by destruct (truthy err3).
Qed.

(** X9.  When the shaped values of an [update] are [undefined] or [null],
    reading [values.id] raises before the connection is opened: the
    exception leaves [update] uncaught, and the callback is not called. *)
Theorem update_without_values_throws (s : S) (criteria values : value)
    (q : query.t) :
  Query criteria = Ok q ->
  nullish (Document values (schema self)) = true ->
  exists message,
    run d s (update criteria values) = [Uncaught (TypeError message)].
Proof.
  intros HQ Hnull. unfold prototype.update, strip_ids, get_prop.
  rewrite HQ, Hnull. simpl. eauto.
Qed.

(** X12.  An aggregate [find] looks at the results before it looks at the
    error: when the driver hands over no results ([undefined], [null]),
    whatever the error, the connection is closed, the [map] raises, and the
    callback is never called. *)
Theorem find_aggregate_without_results (s s' : S) (criteria err results : value)
    (q : query.t) (ps : list (string * value)) :
  Query criteria = Ok q ->
  truthy (query.aggregate q) = true ->
  query.criteria q = VObj ps ->
  let call :=
    native.aggregate (identity self)
      (VArr [VObj [("$match", or_else (default VUndef (obj_get "where" ps))
                                (VObj []))];
             VObj [("$group", query.aggregateGroup q)]]) in
  reply d s call = (s', (err, results)) ->
  nullish results = true ->
  exists message,
    run d s (find criteria) =
      [Opened; Called call; Closed; Uncaught (TypeError message)].
Proof.
  intros HQ Hagg Hcrit call Hreply Hnull.
  unfold prototype.find. rewrite HQ, Hagg, Hcrit, where_of_object.
  cbn [eval_then run]. fold call. rewrite Hreply. cbn [run].
  destruct results; try discriminate; simpl; eauto.
Qed.

End OperationPaths.

(** ** Stripping identifiers, flattening groups *)

(** X10.  Stripping the identifiers of an object never fails and touches
    [id] and [_id] only: every other field is kept as it is, and a falsy
    [id] or [_id] is kept too. *)
Theorem strip_ids_keeps_fields (ps : list (string * value)) :
  exists fields,
    prototype.strip_ids (VObj ps) = Ok (VObj fields) /\
    (forall k, k <> "id" -> k <> "_id" -> obj_get k fields = obj_get k ps) /\
    (forall k x, k = "id" \/ k = "_id" -> obj_get k ps = Some x ->
                 truthy x = false -> obj_get k fields = Some x).
Proof.
  unfold prototype.strip_ids, get_prop. simpl.
  destruct (truthy match obj_get "id" ps with Some x => x | None => VUndef end)
    eqn:Tid; simpl.
  - destruct (truthy match obj_get "_id" (obj_delete "id" ps) with
                     | Some x => x | None => VUndef end) eqn:Ti; simpl;
      (eexists; split; [reflexivity|]; split;
       [ intros k Hk Hk'; by rewrite ?obj_get_delete_ne by auto
       | intros k x [->| ->] Hx Ht ]).
    all: rewrite ?(obj_get_delete_ne "_id" "id") in * by discriminate;
      rewrite ?(obj_get_delete_ne "id" "_id") in * by discriminate;
      rewrite ?Hx in *; congruence.
  - destruct (truthy match obj_get "_id" ps with
                     | Some x => x | None => VUndef end) eqn:Ti; simpl;
      (eexists; split; [reflexivity|]; split;
       [ intros k Hk Hk'; by rewrite ?obj_get_delete_ne by auto
       | intros k x [->| ->] Hx Ht ]).
    all: rewrite ?(obj_get_delete_ne "id" "_id") in * by discriminate;
      rewrite ?Hx in *; congruence.
Qed.


(** * Further properties of the constructor *)

Section ConstructorPaths.
Import Heap.
Local Open Scope heap_scope.

Lemma bind_Done {A B} (m : M A) (k : A -> M B) h h' b :
  (x <- m;; k x) h = (h', Done b) ->
  exists h1 a, m h = (h1, Done a) /\ k a h1 = (h', Done b).
Proof. unfold bind. destruct (m h) as [h1 [a|e]]; [eauto|discriminate]. Qed.

Lemma get_Done v k h h' x :
  get v k h = (h', Done x) ->
  h' = h /\ x = lookup_prop k (own_props v h).
Proof. unfold get. destruct v; intros [= <- <-]; auto. Qed.

Lemma get_heap v k h : fst (get v k h) = h.
Proof. unfold get. by destruct v. Qed.

Lemma keys_Done v h h' ks :
  keys v h = (h', Done ks) -> h' = h /\ ks = own_keys v h.
Proof. unfold keys. destruct v; intros [= <- <-]; auto. Qed.

Lemma index_of_heap schema_ key h : fst (index_of schema_ key h) = h.
Proof.
  unfold index_of, bind.
  pose proof (get_heap schema_ key h) as H1.
  destruct (get schema_ key h) as [h1 [field|e]]; simpl in H1; subst h1; auto.
  pose proof (get_heap field "unique" h) as H2.
  destruct (get field "unique" h) as [h2 [u|e]]; simpl in H2; subst h2; auto.
  destruct (truthy u); auto.
  pose proof (get_heap schema_ key h) as H3.
  destruct (get schema_ key h) as [h3 [field'|e]]; simpl in H3; subst h3; auto.
  pose proof (get_heap field' "index" h) as H4.
  destruct (get field' "index" h) as [h4 [i|e]]; simpl in H4; subst h4; auto.
  by destruct (truthy i).
Qed.

Lemma mapM_index_of_heap schema_ keys_ h :
  fst (mapM (index_of schema_) keys_ h) = h.
Proof.
  induction keys_ as [|key keys_ IH]; simpl; auto.
  unfold bind at 1. pose proof (index_of_heap schema_ key h) as H1.
  destruct (index_of schema_ key h) as [h1 [l|e]]; simpl in H1; subst h1; auto.
  unfold bind. destruct (mapM (index_of schema_) keys_ h) as [h2 [ls|e]];
    simpl in IH; subst h2; auto.
Qed.

Lemma buildIndexes_heap (this : collection jv) (h : heap) :
  fst (buildIndexes this h) = h.
Proof.
  unfold buildIndexes, bind at 1, keys.
  destruct (schema this) eqn:E; simpl; auto;
    unfold bind;
    match goal with
    | |- context [mapM ?f ?l ?h] =>
        pose proof (mapM_index_of_heap (schema this) l h) as H;
        rewrite E in H; destruct (mapM f l h) as [h1 [ls|e]]; simpl in H;
        subst h1; auto
    end.
Qed.

(** X13.  [buildIndexes] reads the schema and writes nothing: whatever the
    instance and the heap, and whether it returns or throws, the heap is
    afterwards what it was. *)
Theorem buildIndexes_reads_only (this : collection jv) (h : heap) :
  exists outcome, buildIndexes this h = (h, outcome).
Proof.
  pose proof (buildIndexes_heap this h) as Hheap.
  destruct (buildIndexes this h) as [h' outcome]. simpl in Hheap. subst h'.
  by exists outcome.
Qed.

Lemma index_of_Done schema_ key h h' l :
  index_of schema_ key h = (h', Done l) ->
  l = pushed_for h key (field_of h schema_ key) /\
  field_of h schema_ key <> Undef /\ field_of h schema_ key <> Null.
Proof.
  unfold index_of, pushed_for, flagged, field_of. intros H.
  apply bind_Done in H as (h1 & field & Hget & H).
  apply get_Done in Hget as [-> ->].
  apply bind_Done in H as (h2 & u & Hget & H).
  assert (Hfield : lookup_prop key (own_props schema_ h) <> Undef /\
                   lookup_prop key (own_props schema_ h) <> Null).
  { unfold get in Hget.
    destruct (lookup_prop key (own_props schema_ h)); split; congruence. }
  apply get_Done in Hget as [-> ->].
  destruct (truthy (lookup_prop "unique" _)).
  { injection H as _ <-. auto. }
  apply bind_Done in H as (h3 & field' & Hget & H).
  apply get_Done in Hget as [-> ->].
  apply bind_Done in H as (h4 & i & Hget & H).
  apply get_Done in Hget as [-> ->].
  destruct (truthy (lookup_prop "index" _)); injection H as _ <-; auto.
Qed.

Lemma mapM_index_of_Done schema_ h : forall keys_ h' pushed,
  mapM (index_of schema_) keys_ h = (h', Done pushed) ->
  pushed = map (fun key => pushed_for h key (field_of h schema_ key)) keys_.
Proof.
  induction keys_ as [|key keys_ IH]; simpl; intros h' pushed H.
  - by injection H as _ <-.
  - apply bind_Done in H as (h1 & l & Hone & H).
    pose proof (index_of_heap schema_ key h) as Hh. rewrite Hone in Hh.
    simpl in Hh. subst h1.
    apply index_of_Done in Hone as [-> _].
    apply bind_Done in H as (h2 & ls & Hrest & H).
    apply IH in Hrest as ->. by injection H as _ <-.
Qed.

Lemma mapM_index_of_fields schema_ h : forall keys_ h' pushed,
  mapM (index_of schema_) keys_ h = (h', Done pushed) ->
  forall key, In key keys_ ->
    field_of h schema_ key <> Undef /\ field_of h schema_ key <> Null.
Proof.
  induction keys_ as [|k keys_ IH]; simpl; intros h' pushed H key Hin;
    [destruct Hin|].
  apply bind_Done in H as (h1 & l & Hone & H).
  pose proof (index_of_heap schema_ k h) as Hh. rewrite Hone in Hh.
  simpl in Hh. subst h1.
  apply index_of_Done in Hone as [_ Hfield].
  apply bind_Done in H as (h2 & ls & Hrest & _).
  destruct Hin as [<-|Hin]; [exact Hfield|]. eapply IH; eauto.
Qed.

(** What the loop throws is what reading a property of [undefined] or
    [null] throws. *)
Lemma get_Thrown v k h h' e :
  get v k h = (h', Thrown e) -> exists message, e = TypeError message.
Proof. unfold get. destruct v; intros [= _ <-]; eauto. Qed.

Lemma index_of_Thrown schema_ key h h' e :
  index_of schema_ key h = (h', Thrown e) -> exists message, e = TypeError message.
Proof.
  unfold index_of, bind, ret.
  destruct (get schema_ key h) as [h1 [field|e1]] eqn:E1;
    [|intros [= _ <-]; by eapply get_Thrown].
  destruct (get field "unique" h1) as [h2 [u|e2]] eqn:E2;
    [|intros [= _ <-]; by eapply get_Thrown].
  destruct (truthy u); [discriminate|].
  destruct (get schema_ key h2) as [h3 [field'|e3]] eqn:E3;
    [|intros [= _ <-]; by eapply get_Thrown].
  destruct (get field' "index" h3) as [h4 [i|e4]] eqn:E4;
    [|intros [= _ <-]; by eapply get_Thrown].
  destruct (truthy i); discriminate.
Qed.

Lemma mapM_index_of_Thrown schema_ : forall keys_ h h' e,
  mapM (index_of schema_) keys_ h = (h', Thrown e) ->
  exists message, e = TypeError message.
Proof.
  induction keys_ as [|k keys_ IH]; simpl; intros h h' e; [discriminate|].
  unfold bind at 1.
  destruct (index_of schema_ k h) as [h1 [l|e1]] eqn:E1;
    [|intros [= _ <-]; by eapply index_of_Thrown].
  unfold bind, ret.
  destruct (mapM (index_of schema_) keys_ h1) as [h2 [ls|e2]] eqn:E2;
    [discriminate|].
  intros [= _ <-]. by eapply IH.
Qed.

Lemma buildIndexes_Done (this this' : collection jv) (h h' : heap) :
  buildIndexes this h = (h', Done this') ->
  this' =
    {| identity := identity this; config := config this; schema := schema this;
       indexes :=
         (indexes this ++
          concat (map (fun key => pushed_for h key (field_of h (schema this) key))
                    (own_keys (schema this) h)))%list |}.
Proof.
  unfold buildIndexes. intros H.
  apply bind_Done in H as (h1 & ks & Hkeys & H).
  apply keys_Done in Hkeys as [-> ->].
  apply bind_Done in H as (h2 & pushed & Hpushed & H).
  apply mapM_index_of_Done in Hpushed as ->.
  by injection H as _ <-.
Qed.

(** X14.  When [buildIndexes] returns, identity, config and schema of the
    instance are as they were, and its indexes gained, in the order in
    which [Object.keys] lists the schema's keys (array indices first, in
    ascending order, then the other names as created): for a field with a
    truthy [unique] the object [{index: {key: 1}, options: {sparse: true,
    unique: true}}], for a field with a truthy [index] only the object
    [{index: {key: 1}, options: {sparse: true}}], and nothing for a field
    with neither. *)
Theorem buildIndexes_pushes_by_flags (this this' : collection jv) (h h' : heap) :
  buildIndexes this h = (h', Done this') ->
  identity this' = identity this /\ config this' = config this /\
  schema this' = schema this /\
  indexes this' =
    (indexes this ++
     concat
       (map (fun key =>
               let field := field_of h (schema this) key in
               if flagged h field "unique" then
                 [VObj [("index", VObj [(key, VNum 1)]);
                        ("options", VObj [("sparse", VBool true);
                                          ("unique", VBool true)])]]
               else if flagged h field "index" then
                 [VObj [("index", VObj [(key, VNum 1)]);
                        ("options", VObj [("sparse", VBool true)])]]
               else [])
          (own_keys (schema this) h)))%list.
Proof. intros H. by rewrite (buildIndexes_Done _ _ _ _ H). Qed.

(** X15.  When a key of the schema object holds [undefined] or [null],
    [buildIndexes] does not return: it throws a TypeError, that of reading
    a property of [undefined] or [null]. *)
Theorem buildIndexes_missing_field_throws (this : collection jv) (h : heap)
    (s : nat) (ps : list (string * jv)) (key : string) :
  schema this = Ref s ->
  h !! s = Some (Obj ps) ->
  In key (map fst ps) ->
  lookup_prop key ps = Undef \/ lookup_prop key ps = Null ->
  exists message, snd (buildIndexes this h) = Thrown (TypeError message).
Proof.
  intros Hschema Hs Hin Hnull.
  assert (Hkey : In key (own_keys (Ref s) h)).
  { apply own_keys_In. unfold own_props. by rewrite Hs. }
  unfold buildIndexes, bind, keys. rewrite Hschema.
  destruct (mapM (index_of (Ref s)) (own_keys (Ref s) h) h)
    as [h1 [pushed|e]] eqn:Hrun; simpl.
  - exfalso.
    destruct (mapM_index_of_fields _ _ _ _ _ Hrun key Hkey) as [Hu Hn].
    unfold field_of, own_props in Hu, Hn. rewrite Hs in Hu, Hn.
    simpl in Hu, Hn. destruct Hnull; congruence.
  - apply mapM_index_of_Thrown in Hrun as [message ->]. eauto.
Qed.

(** *** Array indices are not called [autoIncrement] *)

Lemma pretty_N_go_head x : forall s,
  no_leading_a s -> no_leading_a (pretty_N_go x s).
Proof.
  induction (N.lt_wf_0 x) as [x _ IH]; intros s Hs.
  destruct (decide (x = 0)%N) as [->|Hx]; [by rewrite pretty_N_go_0|].
  rewrite pretty_N_go_step by lia. apply IH.
  - apply N.div_lt; lia.
  - simpl. unfold pretty_N_char. repeat case_match; discriminate.
Qed.

Lemma index_not_autoIncrement (i : nat) : pretty i <> "autoIncrement".
Proof.
  unfold pretty, pretty_nat, pretty, pretty_N.
  destruct (decide (N.of_nat i = 0)%N); [discriminate|].
  intros H. pose proof (pretty_N_go_head (N.of_nat i) "" I) as Hhead.
  rewrite H in Hhead. simpl in Hhead. congruence.
Qed.

Lemma lookup_index_keys (n : nat) (items : list jv) :
  lookup_prop "autoIncrement" (combine (index_keys n) items) = Undef.
Proof.
  unfold index_keys, lookup_prop. revert items.
  induction (seq 0 n) as [|i l IH]; intros [|x items];
    cbn [map combine List.find fst]; auto.
  destruct (String.eqb "autoIncrement" (pretty i)) eqn:E; [|apply IH].
  apply String.eqb_eq in E. symmetry in E. by apply index_not_autoIncrement in E.
Qed.

(** *** What losing [autoIncrement] properties changes *)

Lemma lookup_prop_without k ps :
  lookup_prop k (without_autoIncrement ps)
  = if String.eqb k "autoIncrement" then Undef else lookup_prop k ps.
Proof.
  unfold lookup_prop, without_autoIncrement.
  induction ps as [|[k' v] ps IH]; cbn [List.filter List.find fst snd];
    [by destruct (String.eqb _ _)|].
  destruct (String.eqb "autoIncrement" k') eqn:E1; cbn [negb List.find fst snd].
  - apply String.eqb_eq in E1. subst k'. rewrite IH.
    destruct (String.eqb k "autoIncrement"); auto.
  - destruct (String.eqb k k') eqn:E2; cbn [snd]; auto.
    apply String.eqb_eq in E2. subst k'.
    rewrite String.eqb_sym in E1. by rewrite E1.
Qed.

Lemma shed_refl h : shed h h.
Proof. apply Forall_Forall2_diag, List.Forall_forall. intros c _. by left. Qed.

Lemma without_twice ps :
  without_autoIncrement (without_autoIncrement ps) = without_autoIncrement ps.
Proof.
  unfold without_autoIncrement.
  induction ps as [|p ps IH]; cbn [List.filter]; auto.
  destruct (negb (String.eqb "autoIncrement" (fst p))) eqn:E;
    cbn [List.filter]; auto.
  by rewrite E, IH.
Qed.

Lemma shed_trans h1 h2 h3 : shed h1 h2 -> shed h2 h3 -> shed h1 h3.
Proof.
  apply Forall2_trans. intros c1 c2 c3 [->|(ps & -> & ->)] [->|(ps' & E & ->)].
  - by left.
  - right. eauto.
  - right. eauto.
  - right. injection E as <-. exists ps. by rewrite without_twice.
Qed.

Lemma own_props_shed v h h' :
  shed h h' ->
  own_props v h' = own_props v h \/
  own_props v h' = without_autoIncrement (own_props v h).
Proof.
  intros Hshed. destruct v as [| | | | |a]; simpl; auto.
  destruct (h !! a) as [c|] eqn:E.
  - destruct (Forall2_lookup_l _ _ _ _ _ Hshed E) as (c' & -> & [->|(ps & -> & ->)]);
      auto.
  - apply lookup_ge_None in E. rewrite (Forall2_length _ _ _ Hshed) in E.
    apply lookup_ge_None in E. rewrite E. auto.
Qed.

Lemma field_of_shed v key h h' :
  shed h h' -> field_of h' v key = field_of h v key \/ field_of h' v key = Undef.
Proof.
  intros Hshed. unfold field_of.
  destruct (own_props_shed v h h' Hshed) as [->| ->]; auto.
  rewrite lookup_prop_without. destruct (String.eqb key "autoIncrement"); auto.
Qed.

Lemma flagged_shed v h h' :
  shed h h' ->
  flagged h v "autoIncrement" = false -> flagged h' v "autoIncrement" = false.
Proof.
  intros Hshed. unfold flagged.
  destruct (own_props_shed v h h' Hshed) as [->| ->]; auto.
  by rewrite lookup_prop_without.
Qed.

Lemma flagged_Undef h : flagged h Undef "autoIncrement" = false.
Proof. reflexivity. Qed.

(** One turn of the loop of [parseDefinition]. *)
Lemma strip_step (schema_ : jv) (key : string) (h h1 : heap) :
  (field <- get schema_ key;;
   autoIncrement <- get field "autoIncrement";;
   if truthy autoIncrement then
     field <- get schema_ key;;
     delete_prop field "autoIncrement"
   else ret tt) h = (h1, Done tt) ->
  shed h h1 /\ flagged h1 (field_of h schema_ key) "autoIncrement" = false.
Proof.
  intros H.
  apply bind_Done in H as (h2 & field & Hget & H).
  apply get_Done in Hget as [-> ->]. fold (field_of h schema_ key) in H.
  apply bind_Done in H as (h2 & ai & Hget & H).
  apply get_Done in Hget as [-> ->].
  set (field := field_of h schema_ key) in *.
  destruct (truthy (lookup_prop "autoIncrement" (own_props field h))) eqn:Hai.
  2: { injection H as <-. split; [apply shed_refl|exact Hai]. }
  apply bind_Done in H as (h2 & field' & Hget & H).
  apply get_Done in Hget as [-> ->]. fold (field_of h schema_ key) in H.
  fold field in H. unfold delete_prop in H.
  destruct field as [| | | | |f]; simpl in Hai; try discriminate.
  { by rewrite lookup_index_keys in Hai. }
  destruct (h !! f) as [[ps|items]|] eqn:Hf; simpl in Hai; try discriminate.
  - injection H as <-. split.
    + unfold shed. rewrite <- (list_insert_id h f (Obj ps) Hf) at 1.
      apply Forall2_insert; [apply shed_refl|]. right. eauto.
    + unfold flagged. simpl.
      rewrite list_lookup_insert_eq by (by eapply lookup_lt_Some). simpl.
      fold (without_autoIncrement ps). by rewrite lookup_prop_without.
  - by rewrite lookup_index_keys in Hai.
Qed.

Lemma forEach_shed (schema_ : jv) (body : string -> M unit) :
  (forall key h h1, body key h = (h1, Done tt) ->
     shed h h1 /\ flagged h1 (field_of h schema_ key) "autoIncrement" = false) ->
  forall keys_ h h',
    forEach body keys_ h = (h', Done tt) ->
    shed h h' /\
    forall key, In key keys_ ->
      flagged h' (field_of h' schema_ key) "autoIncrement" = false.
Proof.
  intros Hbody. induction keys_ as [|key keys_ IH]; simpl; intros h h' H.
  - injection H as <-. split; [apply shed_refl|tauto].
  - apply bind_Done in H as (h1 & [] & Hone & Hrest).
    destruct (Hbody key h h1 Hone) as [Hshed1 Hflag].
    destruct (IH h1 h' Hrest) as [Hshed2 Hothers].
    assert (Hshed : shed h h') by (by eapply shed_trans).
    split; auto. intros key' [<-|Hin]; auto.
    destruct (field_of_shed schema_ key h h' Hshed) as [-> | ->].
    + exact (flagged_shed _ h1 h' Hshed2 Hflag).
    + apply flagged_Undef.
Qed.

Lemma lookup_prop_absent k ps : ~ In k (map fst ps) -> lookup_prop k ps = Undef.
Proof.
  unfold lookup_prop. induction ps as [|[k' v] ps IH]; simpl; auto.
  intros Hnot. destruct (String.eqb k k') eqn:E.
  - apply String.eqb_eq in E. subst. tauto.
  - apply IH. tauto.
Qed.

Lemma toLowerCase_heap v h : fst (toLowerCase v h) = h.
Proof. by destruct v. Qed.

Variable parseUrl : jv -> M jv.

Lemma parseDefinition_Done (this this' : collection jv) (definition : jv)
    (h h' : heap) :
  parseDefinition parseUrl this definition h = (h', Done this') ->
  indexes this' = indexes this /\
  forall key, flagged h' (field_of h' (schema this') key) "autoIncrement" = false.
Proof.
  unfold parseDefinition. intros H.
  apply bind_Done in H as (h1 & collectionDef & _ & H).
  apply bind_Done in H as (h2 & config_ & _ & H).
  apply bind_Done in H as (h3 & config' & _ & H).
  apply bind_Done in H as (h4 & schema' & Hget & H).
  apply get_Done in Hget as [-> _].
  apply bind_Done in H as (h4 & ks & Hkeys & H).
  apply keys_Done in Hkeys as [-> ->].
  apply bind_Done in H as (h4 & [] & Hloop & H).
  apply bind_Done in H as (h5 & identity_ & Hget & H).
  apply get_Done in Hget as [-> _].
  apply bind_Done in H as (h5 & identity' & Hlower & H).
  pose proof (toLowerCase_heap identity_ h4) as Hh. rewrite Hlower in Hh.
  simpl in Hh. subst h5. injection H as <- <-. simpl. split; auto.
  destruct (forEach_shed schema' _ (strip_step schema') _ _ _ Hloop)
    as [Hshed Hkeys].
  intros key. destruct (in_dec string_dec key (map fst (own_props schema' h3)))
    as [Hin|Hout]; [by apply Hkeys, own_keys_In|].
  destruct (field_of_shed schema' key h3 h4 Hshed) as [E|E]; rewrite E.
  - unfold field_of. rewrite lookup_prop_absent by exact Hout. apply flagged_Undef.
  - apply flagged_Undef.
Qed.

Lemma Collection_Done (definition : jv) (this : collection jv) (h h' : heap) :
  Collection parseUrl definition h = (h', Done this) ->
  exists this1,
    indexes this1 = [] /\
    (forall key,
       flagged h' (field_of h' (schema this1) key) "autoIncrement" = false) /\
    buildIndexes this1 h' = (h', Done this).
Proof.
  unfold Collection. intros H.
  apply bind_Done in H as (h1 & config0 & _ & H).
  apply bind_Done in H as (h2 & this1 & Hparse & H).
  apply bind_Done in H as (h3 & this2 & Hbuild & H).
  injection H as <- <-.
  pose proof (buildIndexes_heap this1 h2) as Hh. rewrite Hbuild in Hh.
  simpl in Hh. subst h3.
  apply parseDefinition_Done in Hparse as [Hindexes Hflags].
  exists this1. auto.
Qed.

(** X16.  In every instance the constructor builds, no field of the schema
    carries a truthy [autoIncrement]: [self.schema[key].autoIncrement] is
    falsy for every key, whatever the definition held and however its
    objects were shared. *)
Theorem Collection_strips_autoIncrement (definition : jv)
    (this : collection jv) (h h' : heap) :
  Collection parseUrl definition h = (h', Done this) ->
  forall key, flagged h' (field_of h' (schema this) key) "autoIncrement" = false.
Proof.
  intros H. apply Collection_Done in H as (this1 & _ & Hflags & Hbuild).
  apply buildIndexes_Done in Hbuild as ->. exact Hflags.
Qed.

(** X17.  The indexes of an instance the constructor builds are exactly
    what the flags of its own schema ask for, key by key in the order in
    which [Object.keys] lists the schema's keys (array indices first, in
    ascending order, then the other names as created): the object
    [{index: {key: 1}, options: {sparse: true, unique: true}}] for a field
    with a truthy [unique], the object [{index: {key: 1}, options: {sparse:
    true}}] for a field with a truthy [index] only, nothing for the
    others. *)
Theorem Collection_indexes_follow_schema (definition : jv)
    (this : collection jv) (h h' : heap) :
  Collection parseUrl definition h = (h', Done this) ->
  indexes this =
    concat
      (map (fun key =>
              let field := field_of h' (schema this) key in
              if flagged h' field "unique" then
                [VObj [("index", VObj [(key, VNum 1)]);
                       ("options", VObj [("sparse", VBool true);
                                         ("unique", VBool true)])]]
              else if flagged h' field "index" then
                [VObj [("index", VObj [(key, VNum 1)]);
                       ("options", VObj [("sparse", VBool true)])]]
              else [])
         (own_keys (schema this) h')).
Proof.
  intros H. apply Collection_Done in H as (this1 & Hnone & _ & Hbuild).
  apply buildIndexes_Done in Hbuild as ->. simpl. by rewrite Hnone.
Qed.

(** X18.  Called without a definition ([undefined] or [null]), the
    constructor throws a TypeError, that of reading [collectionDef.config],
    and every object that existed before the call is as it was. *)
Theorem Collection_without_definition_throws (h : heap) :
  (exists message,
     snd (Collection parseUrl Undef h) = Thrown (TypeError message)) /\
  (exists message,
     snd (Collection parseUrl Null h) = Thrown (TypeError message)) /\
  (forall a c, h !! a = Some c ->
     fst (Collection parseUrl Undef h) !! a = Some c /\
     fst (Collection parseUrl Null h) !! a = Some c).
Proof.
  assert (HU : Collection parseUrl Undef h
               = ((h ++ [Obj []])%list,
                  Thrown (TypeError "Cannot read property 'config' of undefined"))).
  { unfold Collection, parseDefinition, cloneDeep, bind, alloc.
    cbn [baseClone ret get]. reflexivity. }
  assert (HN : Collection parseUrl Null h
               = ((h ++ [Obj []])%list,
                  Thrown (TypeError "Cannot read property 'config' of null"))).
  { unfold Collection, parseDefinition, cloneDeep, bind, alloc.
    cbn [baseClone ret get]. reflexivity. }
  rewrite HU, HN. simpl. split; [eauto|]. split; [eauto|].
  intros a c Ha. split; by apply lookup_app_l_Some.
Qed.

(** *** The identity of the instance *)

Lemma clone_props_grows (clone : jv -> memo -> M (memo * jv)) :
  (forall v seen h, length h <= length (fst (clone v seen h))) ->
  forall ps seen h, length h <= length (fst (clone_props clone ps seen h)).
Proof.
  intros Hclone. induction ps as [|p ps IH]; intros seen h; simpl; auto.
  unfold bind at 1. pose proof (Hclone (snd p) seen h) as H1.
  destruct (clone (snd p) seen h) as [h1 [r|e]]; simpl in *; auto.
  unfold bind. pose proof (IH (fst r) h1) as H2.
  destruct (clone_props clone ps (fst r) h1) as [h2 [rs|e]]; simpl in *; lia.
Qed.

Lemma baseClone_grows depth source : forall v seen h,
  length h <= length (fst (baseClone depth source v seen h)).
Proof.
  induction depth as [|depth IH]; intros v seen h;
    destruct v as [| | | | |a]; simpl; auto;
    destruct (traversed a seen); simpl; auto;
    destruct (source !! a) as [c|]; simpl; auto.
  unfold bind, next_address, alloc, store. simpl.
  pose proof (clone_props_grows (baseClone depth source) IH (props_of c)
                ((a, length h) :: seen) (h ++ [empty_like c])%list) as H.
  destruct (clone_props (baseClone depth source) (props_of c)
              ((a, length h) :: seen) (h ++ [empty_like c])%list)
    as [h2 [r|e]]; simpl in *; rewrite ?length_insert;
    rewrite length_app in H; simpl in H; lia.
Qed.

Lemma baseClone_copy depth source v seen h h' r :
  baseClone depth source v seen h = (h', Done r) -> copy_of v (snd r).
Proof.
  destruct depth; destruct v as [| | | | |a]; simpl;
    try (by intros [= _ <-]);
    destruct (traversed a seen) as [a'|]; try (intros [= _ <-]; simpl; eauto; fail);
    destruct (source !! a) as [c|]; try (intros [= _ <-]; simpl; eauto; fail);
    try discriminate.
  intros H.
  apply bind_Done in H as (h1 & a1 & _ & H).
  apply bind_Done in H as (h2 & x & _ & H).
  apply bind_Done in H as (h3 & rs & _ & H).
  apply bind_Done in H as (h4 & [] & _ & H).
  injection H as _ <-. simpl. eauto.
Qed.

Lemma clone_props_copy (clone : jv -> memo -> M (memo * jv)) :
  (forall v seen h h' r, clone v seen h = (h', Done r) -> copy_of v (snd r)) ->
  forall ps seen h h' r,
    clone_props clone ps seen h = (h', Done r) ->
    Forall2 (fun p p' => fst p' = fst p /\ copy_of (snd p) (snd p')) ps (snd r).
Proof.
  intros Hclone. induction ps as [|p ps IH]; simpl; intros seen h h' r H.
  - injection H as _ <-. constructor.
  - apply bind_Done in H as (h1 & r1 & Hone & H).
    apply bind_Done in H as (h2 & rs & Hrest & H).
    injection H as _ <-. simpl. constructor; eauto.
Qed.

Lemma lookup_prop_copy k ps ps' :
  Forall2 (fun p p' => fst p' = fst p /\ copy_of (snd p) (snd p')) ps ps' ->
  copy_of (lookup_prop k ps) (lookup_prop k ps').
Proof.
  unfold lookup_prop. induction 1 as [|[k1 v1] [k2 v2] ps ps' [Hk Hv] _ IH];
    cbn [List.find fst snd] in *; [reflexivity|].
  subst k2. by destruct (String.eqb k k1).
Qed.

(** The clone of an object is a new object with the same keys; what its
    properties hold are copies. *)
Lemma cloneDeep_object a ps h h' v :
  h !! a = Some (Obj ps) ->
  cloneDeep (Ref a) h = (h', Done v) ->
  exists ps',
    v = Ref (length h) /\ h' !! length h = Some (Obj ps') /\
    forall k, copy_of (lookup_prop k ps) (lookup_prop k ps').
Proof.
  unfold cloneDeep. intros Hs H.
  apply bind_Done in H as (h1 & r & Hrun & H). injection H as <- <-.
  cbn [baseClone traversed List.find] in Hrun. rewrite Hs in Hrun.
  apply bind_Done in Hrun as (h2 & a1 & Ha1 & Hrun). injection Ha1 as <- <-.
  apply bind_Done in Hrun as (h2 & x & Hx & Hrun). injection Hx as <- _.
  apply bind_Done in Hrun as (h3 & rs & Hprops & Hrun).
  apply bind_Done in Hrun as (h4 & [] & Hstore & Hrun).
  injection Hrun as <- <-. injection Hstore as <-.
  pose proof (clone_props_grows _ (baseClone_grows (length h) h) (props_of (Obj ps))
                [(a, length h)] (h ++ [Obj []])%list) as Hlen.
  rewrite Hprops, length_app in Hlen. simpl in Hlen.
  exists (snd rs). split; [reflexivity|]. split.
  - simpl. apply list_lookup_insert_eq. lia.
  - intros k. apply lookup_prop_copy.
    exact (clone_props_copy _ (baseClone_copy (length h) h) _ _ _ _ _ Hprops).
Qed.

Lemma parseDefinition_identity (this this' : collection jv) (h h' : heap)
    (a : nat) (ps : list (string * jv)) :
  keeps_identity parseUrl ->
  h !! a = Some (Obj ps) ->
  parseDefinition parseUrl this (Ref a) h = (h', Done this') ->
  exists s, lookup_prop "identity" ps = Str s /\ identity this' = lower s.
Proof.
  unfold parseDefinition. intros Hkeeps Hs H.
  apply bind_Done in H as (h1 & collectionDef & Hclone & H).
  destruct (cloneDeep_object a ps h h1 collectionDef Hs Hclone)
    as (ps1 & -> & Hdef1 & Hcopy).
  apply bind_Done in H as (h2 & config_ & Hget & H).
  apply get_Done in Hget as [-> _].
  apply bind_Done in H as (h3 & config' & Hurl & H).
  destruct (Hkeeps _ _ _ _ _ _ Hurl Hdef1) as (ps3 & Hdef3 & Hsame).
  apply bind_Done in H as (h4 & schema' & Hget & H).
  apply get_Done in Hget as [-> _].
  apply bind_Done in H as (h4 & ks & Hkeys & H).
  apply keys_Done in Hkeys as [-> _].
  apply bind_Done in H as (h4 & [] & Hloop & H).
  apply bind_Done in H as (h5 & identity_ & Hget & H).
  apply get_Done in Hget as [-> ->].
  apply bind_Done in H as (h5 & identity' & Hlower & H).
  injection H as _ <-. simpl.
  destruct (forEach_shed schema' _ (strip_step schema') _ _ _ Hloop)
    as [Hshed _].
  assert (Hid : lookup_prop "identity" (own_props (Ref (length h)) h4)
                = lookup_prop "identity" ps1).
  { destruct (own_props_shed (Ref (length h)) h3 h4 Hshed) as [->| ->];
      simpl; rewrite Hdef3; simpl; [|rewrite lookup_prop_without; simpl];
      exact Hsame. }
  rewrite Hid in Hlower. specialize (Hcopy "identity").
  destruct (lookup_prop "identity" ps1) as [| | | |s|b] eqn:E;
    try discriminate.
  injection Hlower as _ <-. exists s. split; [|reflexivity].
  unfold copy_of in Hcopy.
  destruct (lookup_prop "identity" ps); try congruence.
  destruct Hcopy as [b' Hb]. discriminate.
Qed.

(** X5.  When the constructor builds an instance from a definition object
    whose [identity], if a string, is made of ASCII characters, that
    [identity] is a string and the identity of the instance is that string
    with its letters [A] to [Z] in lower case ([utils.parseUrl] taken to
    leave [identity] properties alone). *)
Theorem Collection_identity_lowercased (this : collection jv) (h h' : heap)
    (a : nat) (ps : list (string * jv)) :
  keeps_identity parseUrl ->
  h !! a = Some (Obj ps) ->
  (forall s, lookup_prop "identity" ps = Str s -> ascii_only s = true) ->
  Collection parseUrl (Ref a) h = (h', Done this) ->
  exists s,
    lookup_prop "identity" ps = Str s /\ ascii_only s = true /\
    identity this = lower s.
Proof.
  unfold Collection. intros Hkeeps Hs Hascii H.
  cut (exists s, lookup_prop "identity" ps = Str s /\ identity this = lower s).
  { intros (s & Hid & Hlower). exists s. auto. }
  apply bind_Done in H as (h1 & config0 & Halloc & H).
  injection Halloc as <- _.
  apply bind_Done in H as (h2 & this1 & Hparse & H).
  apply bind_Done in H as (h3 & this2 & Hbuild & H).
  injection H as _ <-.
  apply buildIndexes_Done in Hbuild as ->. simpl.
  eapply parseDefinition_identity; [exact Hkeeps| |exact Hparse].
  by apply lookup_app_l_Some.
Qed.

End ConstructorPaths.

(** ** The further properties on concrete inputs *)

Lemma find_plain_reports_witness :
  run scripted [(VNull, VArr [sample.ann])]
    (prototype.find sample.Query sample.users
       (VObj [("where", VNull); ("limit", VNum 3)]))
  = [Opened;
     Called (native.find "user" (VObj []) (VObj [("limit", VNum 3)]));
     Closed;
     CalledBack VNull (VArr [VObj [("name", VStr "a"); ("id", VNum 1)]])].
Proof.
  exact (find_plain_reports sample.Query sample.users scripted
           [(VNull, VArr [sample.ann])] []
           (VObj [("where", VNull); ("limit", VNum 3)]) VNull (VArr [sample.ann])
           {| query.criteria := VObj [("where", VNull); ("limit", VNum 3)];
              query.aggregate := VUndef; query.aggregateGroup := VUndef |}
           [("where", VNull); ("limit", VNum 3)]
           eq_refl eq_refl eq_refl eq_refl).
Defined.

Lemma insert_reports_witness :
  run scripted [(Error "E11000 duplicate key", VUndef)]
    (prototype.insert sample.Document sample.users (VArr []))
  = [Opened; Called (native.insert "user" (VArr [])); Closed;
     CalledBack (Error "E11000 duplicate key") VUndef].
Proof.
  exact (insert_reports sample.Document sample.users scripted
           [(Error "E11000 duplicate key", VUndef)] [] (VArr [])
           (Error "E11000 duplicate key") VUndef eq_refl).
Defined.

Lemma destroy_reports_witness :
  run scripted [(VNull, VArr [])]
    (prototype.destroy sample.Query sample.users (VObj []))
  = [Opened; Called (native.remove "user" VUndef); Closed;
     Uncaught (ReferenceError "resultArray is not defined")].
Proof.
  exact (destroy_reports sample.Query sample.users scripted
           [(VNull, VArr [])] [] (VObj []) VNull (VArr [])
           {| query.criteria := VObj []; query.aggregate := VUndef;
              query.aggregateGroup := VUndef |} [] eq_refl eq_refl eq_refl).
Defined.

Lemma update_lookup_failure_witness :
  run scripted [(VNull, VNull)]
    (prototype.update sample.Query sample.Document sample.users
       (sample.named "a") (VObj [("name", VStr "b")]))
  = [Opened; Called (native.find "user" (VObj [("name", VStr "a")]) VUndef);
     Closed;
     CalledBack (Error "Could not find any records to update") VUndef].
Proof.
  exact (update_lookup_failure sample.Query sample.Document sample.users scripted
           [(VNull, VNull)] [] (sample.named "a") (VObj [("name", VStr "b")])
           (VObj [("name", VStr "b")]) VNull VNull
           {| query.criteria := sample.named "a"; query.aggregate := VUndef;
              query.aggregateGroup := VUndef |}
           [("where", VObj [("name", VStr "a")])]
           eq_refl eq_refl eq_refl eq_refl eq_refl).
Defined.

Lemma update_after_lookup_witness :
  run scripted
    [(VNull, VArr [sample.ann]); (Error "write failed", VUndef)]
    (prototype.update sample.Query sample.Document sample.users
       (sample.named "a") (VObj [("name", VStr "b")]))
  = [Opened;
     Called (native.find "user" (VObj [("name", VStr "a")]) VUndef);
     Called (native.update "user" (VObj [("name", VStr "a")])
               (VObj [("$set", VObj [("name", VStr "b")])])
               (VObj [("multi", VBool true)]));
     Closed; CalledBack (Error "write failed") VUndef].
Proof.
  exact (update_after_lookup sample.Query sample.Document sample.users scripted
           [(VNull, VArr [sample.ann]); (Error "write failed", VUndef)]
           [(Error "write failed", VUndef)] [] []
           (sample.named "a") (VObj [("name", VStr "b")])
           (VObj [("name", VStr "b")]) VNull (Error "write failed") VUndef
           VUndef VUndef
           {| query.criteria := sample.named "a"; query.aggregate := VUndef;
              query.aggregateGroup := VUndef |}
           [("where", VObj [("name", VStr "a")])] [sample.ann]
           eq_refl eq_refl eq_refl eq_refl eq_refl
           (@List.Forall_cons _ _ sample.ann [] eq_refl (@List.Forall_nil _ _))
           eq_refl eq_refl).
Defined.

Lemma update_without_values_throws_witness :
  exists message,
    run scripted []
      (prototype.update sample.Query sample.Document sample.users
         (sample.named "a") VUndef)
    = [Uncaught (TypeError message)].
Proof.
  exact (update_without_values_throws sample.Query sample.Document sample.users
           scripted [] (sample.named "a") VUndef
           {| query.criteria := sample.named "a"; query.aggregate := VUndef;
              query.aggregateGroup := VUndef |} eq_refl eq_refl).
Defined.

Lemma find_aggregate_without_results_witness :
  exists message,
    run scripted [(Error "exception: bad group", VNull)]
      (prototype.find sample.Query sample.users (sample.grouping "age"))
    = [Opened; Called (native.aggregate "user" (sample.pipeline "age")); Closed;
       Uncaught (TypeError message)].
Proof.
  exact (find_aggregate_without_results sample.Query sample.users scripted
           [(Error "exception: bad group", VNull)] []
           (sample.grouping "age") (Error "exception: bad group") VNull
           {| query.criteria := sample.grouping "age";
              query.aggregate := VBool true;
              query.aggregateGroup :=
                VObj [("_id", VObj [("age", VStr "$age")]);
                      ("n", VObj [("$sum", VNum 1)])] |}
           [("aggregate", VBool true);
            ("aggregateGroup",
             VObj [("_id", VObj [("age", VStr "$age")]);
                   ("n", VObj [("$sum", VNum 1)])])]
           eq_refl eq_refl eq_refl eq_refl eq_refl).
Defined.


Lemma buildIndexes_pushes_by_flags_witness :
  exists this',
    buildIndexes {| identity := "log"; config := Heap.Ref 3;
                    schema := Heap.Ref 2; indexes := [] |} sample.numbered
    = (sample.numbered, Heap.Done this') /\
    indexes this'
    = [VObj [("index", VObj [("9", VNum 1)]);
             ("options", VObj [("sparse", VBool true)])];
       VObj [("index", VObj [("10", VNum 1)]);
             ("options", VObj [("sparse", VBool true); ("unique", VBool true)])];
       VObj [("index", VObj [("name", VNum 1)]);
             ("options", VObj [("sparse", VBool true)])]].
Proof.
  eexists. split; [reflexivity|].
  exact (proj2 (proj2 (proj2
    (buildIndexes_pushes_by_flags
       {| identity := "log"; config := Heap.Ref 3; schema := Heap.Ref 2;
          indexes := [] |} _ sample.numbered sample.numbered eq_refl)))).
Defined.

Lemma buildIndexes_missing_field_throws_witness :
  exists message,
    snd (buildIndexes {| identity := "user"; config := Heap.Null;
                         schema := Heap.Ref 0; indexes := [] |}
           [Heap.Obj [("name", Heap.Str "string"); ("age", Heap.Null)]])
    = Heap.Thrown (TypeError message).
Proof.
  apply (buildIndexes_missing_field_throws
           {| identity := "user"; config := Heap.Null; schema := Heap.Ref 0;
              indexes := [] |}
           [Heap.Obj [("name", Heap.Str "string"); ("age", Heap.Null)]]
           0 [("name", Heap.Str "string"); ("age", Heap.Null)] "age");
    [reflexivity | reflexivity | simpl; auto | right; reflexivity].
Defined.

Lemma Collection_strips_autoIncrement_witness :
  let h' := fst (Collection sample.parseUrl (Heap.Ref 4) sample.caller) in
  let this :=
    {| identity := "user"; config := Heap.Ref 7; schema := Heap.Ref 8;
       indexes := [descriptor "id" [("sparse", VBool true); ("unique", VBool true)];
                   descriptor "name" [("sparse", VBool true)]] |} in
  Collection sample.parseUrl (Heap.Ref 4) sample.caller = (h', Heap.Done this) /\
  flagged sample.caller (field_of sample.caller (Heap.Ref 2) "id")
    "autoIncrement" = true /\
  flagged h' (field_of h' (schema this) "id") "autoIncrement" = false.
Proof.
  intros h' this.
  assert (Hrun : Collection sample.parseUrl (Heap.Ref 4) sample.caller
                 = (h', Heap.Done this)) by reflexivity.
  split; [exact Hrun|]. split; [reflexivity|].
  exact (Collection_strips_autoIncrement sample.parseUrl (Heap.Ref 4) this
           sample.caller h' Hrun "id").
Defined.

Lemma Collection_indexes_follow_schema_witness :
  let h' := fst (Collection sample.parseUrl (Heap.Ref 4) sample.numbered) in
  let this :=
    {| identity := "log"; config := Heap.Ref 7; schema := Heap.Ref 8;
       indexes :=
         [VObj [("index", VObj [("9", VNum 1)]);
                ("options", VObj [("sparse", VBool true)])];
          VObj [("index", VObj [("10", VNum 1)]);
                ("options", VObj [("sparse", VBool true); ("unique", VBool true)])];
          VObj [("index", VObj [("name", VNum 1)]);
                ("options", VObj [("sparse", VBool true)])]] |} in
  Collection sample.parseUrl (Heap.Ref 4) sample.numbered = (h', Heap.Done this) /\
  Heap.own_keys (schema this) h' = ["9"; "10"; "name"] /\
  indexes this
  = concat
      (map (fun key =>
              let field := field_of h' (schema this) key in
              if flagged h' field "unique" then
                [VObj [("index", VObj [(key, VNum 1)]);
                       ("options", VObj [("sparse", VBool true);
                                         ("unique", VBool true)])]]
              else if flagged h' field "index" then
                [VObj [("index", VObj [(key, VNum 1)]);
                       ("options", VObj [("sparse", VBool true)])]]
              else [])
         (Heap.own_keys (schema this) h')).
Proof.
  intros h' this.
  assert (Hrun : Collection sample.parseUrl (Heap.Ref 4) sample.numbered
                 = (h', Heap.Done this)) by reflexivity.
  split; [exact Hrun|]. split; [reflexivity|].
  exact (Collection_indexes_follow_schema sample.parseUrl (Heap.Ref 4) this
           sample.numbered h' Hrun).
Defined.

Lemma parseUrl_keeps_identity : keeps_identity sample.parseUrl.
Proof. intros v h h' r a ps [= <- _] Hs. eauto. Qed.

Lemma Collection_identity_lowercased_witness :
  keeps_identity sample.parseUrl /\
  exists s,
    Heap.lookup_prop "identity"
      [("identity", Heap.Str "User"); ("config", Heap.Ref 3);
       ("definition", Heap.Ref 2)] = Heap.Str s /\
    ascii_only s = true /\
    "user" = Heap.lower s.
Proof.
  split; [exact parseUrl_keeps_identity|].
  apply (Collection_identity_lowercased sample.parseUrl
           {| identity := "user"; config := Heap.Ref 7; schema := Heap.Ref 8;
              indexes :=
                [descriptor "id" [("sparse", VBool true); ("unique", VBool true)];
                 descriptor "name" [("sparse", VBool true)]] |}
           sample.caller
           (fst (Collection sample.parseUrl (Heap.Ref 4) sample.caller)) 4
           [("identity", Heap.Str "User"); ("config", Heap.Ref 3);
            ("definition", Heap.Ref 2)]
           parseUrl_keeps_identity eq_refl);
    [|reflexivity].
  intros s H. vm_compute in H. injection H as <-. reflexivity.
Defined.
